(** * twiga: the per-user message-coalescing service (app/services/llm_service.py)

    A shallow embedding of [MessageProcessor] and [LLMClient]:
    the message dictionaries, tool-call staging, prompt construction, and the
    generation loop of [generate_response] run under asyncio's cooperative
    scheduling, where tasks interleave only at the three [await]s that really
    suspend (the history fetch and the two completion calls). *)

From stdpp Require Import gmap strings list fin_maps.
From Stdlib Require Import ZArith.

Local Open Scope Z_scope.
Local Open Scope list_scope.

(** ** Python values that occur in the message dictionaries *)

(** Modelled from the spec: [MessageRole] lives in app/database/models.py, which
    is not part of the sources; the spec's data model gives a turn's role as one
    of system, user, assistant, tool. The string literals ["system"] and
    ["user"] of the service are the same roles. *)
Module MessageRole.
Inductive t := system | user | assistant | tool.
#[global] Instance eq_dec : EqDecision t.
Proof. solve_decision. Defined.
End MessageRole.

(** A value stored under a key of a message dictionary: [None] or a [str]. *)
Inductive value := VNone | VStr (s : string).

#[global] Instance value_eq_dec : EqDecision value.
Proof. solve_decision. Defined.

(** The dictionaries built by the service all carry ["role"] and a subset of
    the keys ["content"], ["tool_calls"], ["tool_call_id"]; a key that is not
    set is [None] here, a key set to Python's [None] is [Some VNone]. *)
Record dict := {
  role : MessageRole.t;
  content : option value;
  tool_calls : option value;
  tool_call_id : option value;
}.

#[global] Instance dict_eq_dec : EqDecision dict.
Proof. solve_decision. Defined.

(** [msg.get(key)]: the stored value, [None] when the key is absent. *)
Definition get (field : option value) : value := default VNone field.

(** Modelled from the spec: the persisted [Message] of app/database/models.py
    (a conversation turn, role and content). *)
Record Message := { msg_role : MessageRole.t; msg_content : value }.

(** openai's [ChatCompletionMessageToolCall] with its nested [function]. *)
Record Function := { name : string; arguments : string }.
Record ChatCompletionMessageToolCall := { id : string; function : Function }.

(** openai's [ChatCompletionMessage], the fields the service reads. *)
Record ChatCompletionMessage := {
  cc_content : value;
  cc_tool_calls : option (list ChatCompletionMessageToolCall);
}.

(** One entry of [tool_calls_serializable] in [_process_tool_calls]. *)
Record tool_call_serializable := {
  function_name : string;
  ser_arguments : string;
  ser_tool_call_id : string;
}.

(** What Python raises. [except Exception] catches the subclasses of
    [Exception]; every other [BaseException] passes it:
    [asyncio.CancelledError], thrown into a task at its [await] when the task
    is cancelled, [KeyboardInterrupt], [SystemExit]. *)
Inductive exn := Exception (what : string) | BaseException (what : string).

Definition is_exception (e : exn) : bool :=
  match e with Exception _ => true | BaseException _ => false end.

(** What an [await] comes back with, and what a stretch of a coroutine ends
    with: a value, or something raised. *)
Inductive result (A : Type) := Ok (a : A) | Raise (e : exn).
Arguments Ok {A} a.
Arguments Raise {A} e.

(** The [json] codec and the tools are called synchronously, between two
    suspensions. What such a call raises ([JSONDecodeError], [TypeError], a
    tool's own error) is a subclass of [Exception], kept here by its message;
    nothing is thrown into a task while it runs one. *)
Inductive sync (A : Type) := Returns (a : A) | Raises (what : string).
Arguments Returns {A} a.
Arguments Raises {A} what.

Definition sync_bind {A B} (r : sync A) (k : A → sync B) : sync B :=
  match r with Returns a => k a | Raises what => Raises what end.

Notation "'let?' x := r 'in' k" := (sync_bind r (fun x => k))
  (at level 10, x name, r at level 100, k at level 200).

(** ** Python list slices with one bound *)

(** [l[:stop]]: a negative [stop] counts from the end and is clamped at 0. *)
Definition slice_to {A} (l : list A) (stop : Z) : list A :=
  if stop <? 0 then take (Z.to_nat (Z.of_nat (length l) + stop)) l
  else take (Z.to_nat stop) l.

(** [l[start:]]. *)
Definition slice_from {A} (l : list A) (start : Z) : list A :=
  if start <? 0 then drop (Z.to_nat (Z.of_nat (length l) + start)) l
  else drop (Z.to_nat start) l.

(** The line feed between the buffered messages, ["\n"]. *)
Definition newline : string := String (Ascii.ascii_of_nat 10) EmptyString.

(** ** MessageProcessor (lines 19-42) *)

Module User.
(** Modelled from the spec: the [User] of app/database/models.py; the
    service reads its [id] and logs its [wa_id]. *)
Record t := { id : Z; wa_id : string }.
End User.

Module MessageProcessor.

(** [lock] is the state of the [asyncio.Lock]: held or free. *)
Record t := { user_id : Z; lock : bool; messages : list string }.

Definition __init__ (user_id : Z) : t :=
  {| user_id := user_id; lock := false; messages := [] |}.

Definition add_message (self : t) (message : string) : t :=
  {| user_id := user_id self; lock := lock self;
     messages := messages self ++ [message] |}.

Definition get_pending_messages (self : t) : list string := messages self.

Definition clear_messages (self : t) : t :=
  {| user_id := user_id self; lock := lock self; messages := [] |}.

Definition has_messages (self : t) : bool :=
  match messages self with [] => false | _ :: _ => true end.

Definition is_locked (self : t) : bool := lock self.

Definition set_lock (held : bool) (self : t) : t :=
  {| user_id := user_id self; lock := held; messages := messages self |}.

End MessageProcessor.

(** ** LLMClient: the registry and the processor objects (lines 45-72) *)

(** [_processors] maps a user id to a reference to its processor object;
    [objects] holds the processor objects, a reference is an index. Objects are
    never freed, so a reference held by a running call stays valid after its
    registry entry is deleted. *)
Record LLMClient := {
  objects : list MessageProcessor.t;
  _processors : gmap Z nat;
}.

(** Code that reads and writes the client and may raise: the client it
    leaves is there in both cases. *)
Definition M (A : Type) : Type := LLMClient → result A * LLMClient.

#[global] Instance M_ret : MRet M := λ A a self, (Ok a, self).

#[global] Instance M_bind : MBind M := λ A B k m self,
  match m self with
  | (Ok a, self') => k a self'
  | (Raise e, self') => (Raise e, self')
  end.

#[global] Instance M_fmap : FMap M := λ A B f m self,
  match m self with
  | (Ok a, self') => (Ok (f a), self')
  | (Raise e, self') => (Raise e, self')
  end.

Definition raise {A} (e : exn) : M A := λ self, (Raise e, self).

Definition lift {A} (r : result A) : M A := λ self, (r, self).

(** [try: body except Exception as e: handler e]: the handler gets the
    subclasses of [Exception], anything else goes on to the caller. *)
Definition try_except {A} (body : M A) (handler : exn → M A) : M A := λ self,
  match body self with
  | (Ok a, self') => (Ok a, self')
  | (Raise e, self') =>
      if is_exception e then handler e self' else (Raise e, self')
  end.

(** [try: body except BaseException as e: handler e]: whatever was raised.
    The exit of a context manager is of this kind. *)
Definition try_except_base {A} (body : M A) (handler : exn → M A) : M A :=
  λ self,
  match body self with
  | (Ok a, self') => (Ok a, self')
  | (Raise e, self') => handler e self'
  end.

(** The object behind a reference. Python has no dangling reference; the
    default stands for one, and [active_facts] below shows that the reference of
    a running call always points to an object. *)
Definition deref (self : LLMClient) (processor : nat) : MessageProcessor.t :=
  default (MessageProcessor.__init__ 0) (objects self !! processor).

Definition read {A} (processor : nat) (f : MessageProcessor.t → A) : M A :=
  λ self, (Ok (f (deref self processor)), self).

(** The client after the object behind [processor] went through [f]. *)
Definition altered (self : LLMClient) (processor : nat)
    (f : MessageProcessor.t → MessageProcessor.t) : LLMClient :=
  {| objects := alter f processor (objects self);
     _processors := _processors self |}.

Definition update (processor : nat) (f : MessageProcessor.t → MessageProcessor.t)
  : M unit :=
  λ self, (Ok (), altered self processor f).

Definition _get_processor (user_id : Z) : M nat := λ self,
  match _processors self !! user_id with
  | Some processor => (Ok processor, self)
  | None =>
      let processor := length (objects self) in
      (Ok processor,
       {| objects := objects self ++ [MessageProcessor.__init__ user_id];
          _processors := <[user_id := processor]> (_processors self) |})
  end.

Definition _cleanup_processor (user_id : Z) : M unit := λ self,
  match _processors self !! user_id with
  | Some processor =>
      if negb (MessageProcessor.has_messages (deref self processor))
         && negb (MessageProcessor.is_locked (deref self processor))
      then (Ok (), {| objects := objects self;
                      _processors := delete user_id (_processors self) |})
      else (Ok (), self)
  | None => (Ok (), self)
  end.

Definition _check_new_messages (processor : nat) (original_count : nat) : M bool :=
  read processor
    (λ p, bool_decide (original_count < length (MessageProcessor.messages p))%nat).

(** [_generate_completion] (lines 75-89) once the provider call has come
    back: the message of the first choice, or [None] when the call raised an
    [Exception]; anything else raised at the [await] leaves the function. *)
Definition _generate_completion (response : result ChatCompletionMessage)
  : M (option ChatCompletionMessage) :=
  try_except (Some <$> lift response) (λ e, mret None).

(** ** Where a call of [generate_response] is

    A call is suspended in the lock, in the history fetch, or in one of the two
    completion calls, with its live local variables; or it has returned; or an
    exception has left it. *)
Inductive pc :=
| AwaitLock (processor : nat)
| AwaitHistory (processor : nat) (messages_to_process : list string)
| AwaitPhase1 (processor : nat) (messages_to_process : list string)
    (api_messages : list dict)
| AwaitPhase2 (processor : nat) (messages_to_process : list string)
    (api_messages : list dict) (initial_response : ChatCompletionMessage)
    (updated_messages : list dict)
| Returned (response_messages : option (list dict))
| Raised (e : exn).

(** How a stretch of the loop body ends. *)
Inductive exit := Suspend (at_ : pc) | Return_ (r : option (list dict)).
Inductive flow := Exit (x : exit) | Continue.

Record task := { user : User.t; at_ : pc }.

Record state := { client : LLMClient; tasks : list task }.

(** What the scheduler does next: start a call, or resume a suspended one with
    the outcome of what it was waiting for. *)
Inductive event :=
| Call (user : User.t) (message : string)
| LockGranted (t : nat)
| HistoryFetched (t : nat) (message_history : result (option (list Message)))
| Completed (t : nat) (response : result ChatCompletionMessage).

(** ** A small instance of the collaborators, for the examples

    One registered tool, [get_time]; arguments and results are strings, the
    codec fails on a lone opening brace. *)

Definition demo_loads (s : string) : sync string :=
  if decide (s = "{") then Raises "JSONDecodeError" else Returns s.

Definition demo_dumps (r : string) : sync string := Returns r.

Definition demo_dumps_calls (l : list tool_call_serializable) : string :=
  String.concat ";"
    ((λ c, function_name c +:+ "(" +:+ ser_arguments c +:+ ")#"
           +:+ ser_tool_call_id c) <$> l).

Definition demo_tools : gmap string (string → sync string) :=
  {[ "get_time" := (λ _, Returns "noon") ]}.

Definition demo_prompt (_ : string) : string := "You are Twiga".

Definition alice : User.t := {| User.id := 7; User.wa_id := "255700000007" |}.
Definition bob : User.t := {| User.id := 8; User.wa_id := "255700000008" |}.

(** A stored history of user turns, a plain answer of the provider, and an
    answer that asks for two tools of which only the first is registered. *)
Definition said (l : list string) : result (option (list Message)) :=
  Ok (Some ((λ m, {| msg_role := MessageRole.user; msg_content := VStr m |})
              <$> l)).

Definition answer (c : string) : ChatCompletionMessage :=
  {| cc_content := VStr c; cc_tool_calls := None |}.

Definition known_call : ChatCompletionMessageToolCall :=
  {| id := "call_1"; function := {| name := "get_time"; arguments := "{}" |} |}.

Definition unknown_call : ChatCompletionMessageToolCall :=
  {| id := "call_2"; function := {| name := "get_rain"; arguments := "{}" |} |}.

Definition two_requests : ChatCompletionMessage :=
  {| cc_content := VNone; cc_tool_calls := Some [known_call; unknown_call] |}.

(** Scenario A: "hi", then "how are you" while the first completion is out. *)
Definition scenario_A : list event :=
  [ Call alice "hi";
    HistoryFetched 0 (said ["hi"]);
    Call alice "how are you";
    Completed 0 (Ok (answer "Hello!"));
    HistoryFetched 0 (said ["hi"; "how are you"]) ].

(** Two users at once, and a second message of the first. *)
Definition two_users : list event :=
  [ Call alice "hi"; Call bob "habari"; Call alice "how are you" ].

(** One message, answered; and the same message with a provider that fails. *)
Definition served : list event :=
  [ Call alice "hi"; HistoryFetched 0 (said ["hi"]);
    Completed 0 (Ok (answer "Hello!")) ].

Definition failed : list event :=
  [ Call alice "hi"; HistoryFetched 0 (said ["hi"]);
    Completed 0 (Raise (Exception "provider timeout")) ].

(** A first answer that asks for the registered tool, and the call waiting
    for the second answer. *)
Definition one_request : ChatCompletionMessage :=
  {| cc_content := VNone; cc_tool_calls := Some [known_call] |}.

Definition tool_round : list event :=
  [ Call alice "what time?"; HistoryFetched 0 (said ["what time?"]);
    Completed 0 (Ok one_request) ].

Definition demo_system_turn : dict :=
  {| role := MessageRole.system; content := Some (VStr "You are Twiga");
     tool_calls := None; tool_call_id := None |}.

(** ** Tool-call staging and prompt construction *)

Section Collaborators.

(** The collaborators the service imports: the [json] codec, the tool table of
    app/tools/registry.py, and the prompt provider of assets/prompts.py. A
    tool's keyword arguments are whatever [json.loads] returned. *)
Context {JsonArgs ToolResult : Type}.
Variable json_loads : string → sync JsonArgs.
Variable json_dumps : ToolResult → sync string.
Variable json_dumps_calls : list tool_call_serializable → string.
Variable tools_functions : gmap string (JsonArgs → sync ToolResult).
Variable get_system_prompt : string → string.

Definition serializable (tool_call : ChatCompletionMessageToolCall)
  : tool_call_serializable :=
  {| function_name := name (function tool_call);
     ser_arguments := arguments (function tool_call);
     ser_tool_call_id := id tool_call |}.

(** The assistant turn that echoes the raw requests (lines 97-110). *)
Definition echo_turn (tool_calls : list ChatCompletionMessageToolCall) : dict :=
  {| role := MessageRole.assistant;
     content := None;
     tool_calls := Some (VStr (json_dumps_calls (serializable <$> tool_calls)));
     tool_call_id := None |}.

Definition tool_turn (serialized : string) (call_id : string) : dict :=
  {| role := MessageRole.tool;
     content := Some (VStr serialized);
     tool_calls := None;
     tool_call_id := Some (VStr call_id) |}.

(** The body of the [try] of one loop iteration (lines 114-126): the
    dictionary to append, if any. The arguments are parsed before the name is
    looked up. *)
Definition try_tool_call (tool_call : ChatCompletionMessageToolCall)
  : sync (option dict) :=
  let function_name := name (function tool_call) in
  let? function_args := json_loads (arguments (function tool_call)) in
  match tools_functions !! function_name with
  | Some f =>
      let? result := f function_args in
      let? serialized := json_dumps result in
      Returns (Some (tool_turn serialized (id tool_call)))
  | None => Returns None
  end.

(** [try: ... except Exception: log] around the body: what one request
    appends to [updated_messages]. *)
Definition tool_call_turns (tool_call : ChatCompletionMessageToolCall)
  : list dict :=
  match try_tool_call tool_call with
  | Returns (Some turn) => [turn]
  | Returns None => []
  | Raises _ => []
  end.

(** [_process_tool_calls] on list values (lines 91-131). *)
Definition _process_tool_calls (messages : list dict)
    (tool_calls : list ChatCompletionMessageToolCall) : list dict :=
  foldl (fun updated_messages tool_call =>
           updated_messages ++ tool_call_turns tool_call)
        (messages ++ [echo_turn tool_calls]) tool_calls.

(** [_format_conversation_history] (lines 260-277). *)
Definition _format_conversation_history (messages : option (list Message))
  : list dict :=
  let system_prompt := get_system_prompt "default_system" in
  let formatted_messages :=
    [ {| role := MessageRole.system; content := Some (VStr system_prompt);
         tool_calls := None; tool_call_id := None |} ] in
  match messages with
  | Some (m :: ms) =>
      formatted_messages ++
      ((fun msg => {| role := msg_role msg; content := Some (msg_content msg);
                      tool_calls := None; tool_call_id := None |})
         <$> (m :: ms))
  | _ => formatted_messages
  end.

Definition assistant_turn (c : value) : dict :=
  {| role := MessageRole.assistant; content := Some c;
     tool_calls := None; tool_call_id := None |}.

Definition user_turn (messages_to_process : list string) : dict :=
  {| role := MessageRole.user;
     content := Some (VStr (String.concat newline messages_to_process));
     tool_calls := None; tool_call_id := None |}.

(** [api_messages] (lines 168-171). *)
Definition api_messages (formatted_messages : list dict)
    (messages_to_process : list string) : list dict :=
  slice_to formatted_messages (- Z.of_nat (length messages_to_process))
  ++ [user_turn messages_to_process].


(** *** The same function on list objects

    [messages.copy()] allocates a new list object and [append] mutates it in
    place; the heap holds the list objects, a reference is an index. *)
Abbreviation list_heap := (list (list dict)).

Definition list_copy (l : nat) (σ : list_heap) : nat * list_heap :=
  (length σ, σ ++ [default [] (σ !! l)]).

Definition list_append (l : nat) (d : dict) (σ : list_heap) : list_heap :=
  alter (λ elements, elements ++ [d]) l σ.

Definition _process_tool_calls_in_heap (messages : nat)
    (tool_calls : list ChatCompletionMessageToolCall) (σ : list_heap)
  : nat * list_heap :=
  let '(updated_messages, σ) := list_copy messages σ in
  let σ := list_append updated_messages (echo_turn tool_calls) σ in
  let σ :=
    foldl (fun σ tool_call =>
             match try_tool_call tool_call with
             | Returns (Some turn) => list_append updated_messages turn σ
             | Returns None => σ
             | Raises _ => σ
             end) σ tool_calls in
  (updated_messages, σ).


(** ** generate_response (lines 133-258)

    The body is cut where it suspends. Each stretch runs without
    interleaving: awaiting [_check_new_messages] and [_process_tool_calls]
    does not yield, they contain no suspension themselves. *)

Import MessageProcessor.

(** Lines 247-252. *)
Definition success (user : User.t) (processor : nat)
    (response_messages : list dict) : M exit :=
  update processor clear_messages;;
  _cleanup_processor (User.id user);;
  mret (Return_ (Some response_messages)).

(** The handler of lines 254-258. *)
Definition on_exception (user : User.t) (processor : nat) (e : exn) : M exit :=
  update processor clear_messages;;
  _cleanup_processor (User.id user);;
  mret (Return_ None).

(** Lines 153-162: from the top of the loop body into the history fetch. *)
Definition loop_top (user : User.t) (processor : nat) : M exit :=
  messages_to_process ← read processor get_pending_messages;
  match messages_to_process with
  | [] =>
      update processor clear_messages;;
      _cleanup_processor (User.id user);;
      mret (Return_ None)
  | _ :: _ => mret (Suspend (AwaitHistory processor messages_to_process))
  end.

(** Lines 162-176: the history is back (or the fetch raised); format it,
    build the prompt and call the provider with the tools enabled. *)
Definition after_history (processor : nat) (messages_to_process : list string)
    (fetched : result (option (list Message))) : M flow :=
  message_history ← lift fetched;
  let formatted_messages := _format_conversation_history message_history in
  let api_messages := api_messages formatted_messages messages_to_process in
  mret (Exit (Suspend (AwaitPhase1 processor messages_to_process api_messages))).

(** Lines 174-252 for a first completion. *)
Definition after_phase1 (user : User.t) (processor : nat)
    (messages_to_process : list string) (api_messages : list dict)
    (response : result ChatCompletionMessage) : M flow :=
  initial_response ← _generate_completion response;
  match initial_response with
  | None => mret (Exit (Return_ None))
  | Some initial_response =>
      new_messages ←
        _check_new_messages processor (length messages_to_process);
      if (new_messages : bool) then mret Continue
      else
        match cc_tool_calls initial_response with
        | Some (tool_call :: tool_calls) =>
            let updated_messages :=
              _process_tool_calls api_messages (tool_call :: tool_calls) in
            mret (Exit (Suspend (AwaitPhase2 processor messages_to_process
                                   api_messages initial_response
                                   updated_messages)))
        | _ =>
            let response_messages :=
              [ {| role := MessageRole.assistant;
                   content := Some (cc_content initial_response);
                   tool_calls := None; tool_call_id := None |} ] in
            Exit <$> success user processor response_messages
        end
  end.

(** The comprehension of lines 219-233 over the tail of
    [updated_messages]. *)
Definition echoed (tail : list dict) : list dict :=
  imap (λ i msg,
          {| role := role msg;
             content := Some (if bool_decide (i = 0%nat)
                              then get (tool_calls msg)
                              else get (content msg));
             tool_calls := None; tool_call_id := None |}) tail.

(** Lines 199-252 for the second completion. *)
Definition after_phase2 (user : User.t) (processor : nat)
    (messages_to_process : list string)
    (initial_response : ChatCompletionMessage)
    (updated_messages : list dict)
    (response : result ChatCompletionMessage) : M flow :=
  final_response ← _generate_completion response;
  match final_response with
  | None => mret (Exit (Return_ None))
  | Some final_response =>
      new_messages ←
        _check_new_messages processor (length messages_to_process);
      if (new_messages : bool) then mret Continue
      else
        let initial_tool_calls := default [] (cc_tool_calls initial_response) in
        let response_messages :=
          echoed (slice_from updated_messages
                    (- (Z.of_nat (length initial_tool_calls) + 1)))
          ++ [ {| role := MessageRole.assistant;
                  content := Some (cc_content final_response);
                  tool_calls := None; tool_call_id := None |} ] in
        Exit <$> success user processor response_messages
  end.

(** [while True: try: stretch except Exception: ...]: a [continue] goes back
    to the top of the loop, which runs on into the history fetch. What is not
    an [Exception] passes the handler and leaves the loop. *)
Definition loop (user : User.t) (processor : nat) (stretch : M flow) : M exit :=
  f ← try_except stretch (λ e, Exit <$> on_exception user processor e);
  match f with
  | Exit x => mret x
  | Continue =>
      try_except (loop_top user processor) (on_exception user processor)
  end.

(** [async with processor.lock:] around the loop: the lock is released when
    the body returns and when anything raised leaves it, which then goes on
    to the caller. *)
Definition under_lock (processor : nat) (body : M exit) : M pc :=
  x ← try_except_base body (λ e, update processor (set_lock false);; raise e);
  match x with
  | Suspend at_ => mret at_
  | Return_ r => update processor (set_lock false);; mret (Returned r)
  end.

(** [asyncio.Lock.acquire] when the lock is free takes it without
    suspending; otherwise the call waits. *)
Definition enter_lock (user : User.t) (processor : nat) : M pc :=
  locked ← read processor is_locked;
  if (locked : bool) then mret (AwaitLock processor)
  else
    update processor (set_lock true);;
    under_lock processor (loop user processor (mret Continue)).

(** Lines 139-151: a call from its start to its first suspension. *)
Definition generate_response (user : User.t) (message : string) : M pc :=
  processor ← _get_processor (User.id user);
  update processor (λ p, add_message p message);;
  locked ← read processor is_locked;
  if (locked : bool) then mret (Returned None)
  else enter_lock user processor.

(** A suspended call resumed with what it was waiting for. *)
Definition resume (user : User.t) (at_ : pc) (ev : event) : option (M pc) :=
  match at_, ev with
  | AwaitLock processor, LockGranted _ =>
      Some (enter_lock user processor)
  | AwaitHistory processor messages_to_process, HistoryFetched _ fetched =>
      Some (under_lock processor
              (loop user processor
                 (after_history processor messages_to_process fetched)))
  | AwaitPhase1 processor messages_to_process api_messages,
    Completed _ response =>
      Some (under_lock processor
              (loop user processor
                 (after_phase1 user processor messages_to_process
                    api_messages response)))
  | AwaitPhase2 processor messages_to_process _ initial_response
      updated_messages, Completed _ response =>
      Some (under_lock processor
              (loop user processor
                 (after_phase2 user processor messages_to_process
                    initial_response updated_messages response)))
  | _, _ => None
  end.

(** What is raised and not caught leaves the coroutine and reaches its
    caller. *)
Definition run_task (m : M pc) (self : LLMClient) : pc * LLMClient :=
  match m self with
  | (Ok at_, self') => (at_, self')
  | (Raise e, self') => (Raised e, self')
  end.

Definition target (ev : event) : option nat :=
  match ev with
  | Call _ _ => None
  | LockGranted t | HistoryFetched t _ | Completed t _ => Some t
  end.

(** A call waiting for the lock is woken only once the lock is free. *)
Definition blocked (self : LLMClient) (at_ : pc) : bool :=
  match at_ with
  | AwaitLock processor => lock (deref self processor)
  | _ => false
  end.

(** One scheduling step; [None] when the event does not match what the call
    is waiting for, or when the lock it waits for is still held. *)
Definition step (s : state) (ev : event) : option state :=
  match ev with
  | Call user message =>
      let '(at_, self) :=
        run_task (generate_response user message) (client s) in
      Some {| client := self;
              tasks := tasks s ++ [ {| user := user; at_ := at_ |} ] |}
  | _ =>
      t ← target ev;
      tk ← tasks s !! t;
      m ← resume (user tk) (at_ tk) ev;
      if blocked (client s) (at_ tk) then None
      else
        let '(at_, self) := run_task m (client s) in
        Some {| client := self;
                tasks := <[t := {| user := user tk; at_ := at_ |}]> (tasks s) |}
  end.

Fixpoint run (s : state) (evs : list event) : option state :=
  match evs with
  | [] => Some s
  | ev :: evs => s' ← step s ev; run s' evs
  end.

Definition init : state :=
  {| client := {| objects := []; _processors := ∅ |}; tasks := [] |}.

Definition reachable (s : state) : Prop := ∃ evs, run init evs = Some s.

(** ** What the statements below speak about *)

(** The processor a call holds the lock of, with the snapshot it works on. *)
Definition active (a : pc) : option (nat * list string) :=
  match a with
  | AwaitHistory processor messages_to_process
  | AwaitPhase1 processor messages_to_process _
  | AwaitPhase2 processor messages_to_process _ _ _ =>
      Some (processor, messages_to_process)
  | AwaitLock _ | Returned _ | Raised _ => None
  end.

(** The pending buffer of a user id, as the registry sees it. *)
Definition pending (s : state) (user_id : Z) : list string :=
  match _processors (client s) !! user_id with
  | Some processor => messages (deref (client s) processor)
  | None => []
  end.

(** The messages the calls of a schedule append for a user id, in order. *)
Definition appended (user_id : Z) (evs : list event) : list string :=
  evs ≫= λ ev,
    match ev with
    | Call user message =>
        if decide (User.id user = user_id) then [message] else []
    | _ => []
    end.

(** The prompt a suspended completion call was given goes back to the
    snapshot of its attempt. *)
Definition prompt_ok (a : pc) : Prop :=
  match a with
  | AwaitPhase1 _ B api =>
      ∃ H, api = api_messages (_format_conversation_history H) B
  | AwaitPhase2 _ B api initial_response updated =>
      (∃ H, api = api_messages (_format_conversation_history H) B) ∧
      ∃ tool_call tool_calls,
        cc_tool_calls initial_response = Some (tool_call :: tool_calls) ∧
        updated = _process_tool_calls api (tool_call :: tool_calls)
  | _ => True
  end.

(** The client after the first message of a user id not seen before. *)
Definition registered (self : LLMClient) (user_id : Z) (message : string)
  : LLMClient :=
  {| objects := objects self
                ++ [ {| user_id := user_id; lock := true;
                        messages := [message] |} ];
     _processors := <[user_id := length (objects self)]> (_processors self) |}.

(** A resumed call [t] with where it got to and the client it left. *)
Definition resumed (s : state) (t : nat) (tk : task) (out : pc * LLMClient)
  : state :=
  {| client := out.2;
     tasks := <[t := {| user := user tk; at_ := out.1 |}]> (tasks s) |}.

(** At most one call per user id is past the lock. *)
Definition one_generation_per_user (s : state) : Prop :=
  ∀ i j tki tkj pi Bi pj Bj,
    tasks s !! i = Some tki → tasks s !! j = Some tkj →
    active (at_ tki) = Some (pi, Bi) → active (at_ tkj) = Some (pj, Bj) →
    User.id (user tki) = User.id (user tkj) → i = j.

(** No call is suspended in a lock, its own user's or another's. *)
Definition nobody_waits (s : state) : Prop :=
  ∀ i tk p, tasks s !! i = Some tk → at_ tk ≠ AwaitLock p.

(** A user's lock is held exactly while a call of that user is past it, and
    two user ids never share a processor, hence never a lock. *)
Definition locks_have_holders (s : state) : Prop :=
  (∀ uid p,
     _processors (client s) !! uid = Some p →
     lock (deref (client s) p) = true ↔
     ∃ i tk B, tasks s !! i = Some tk ∧ active (at_ tk) = Some (p, B) ∧
               User.id (user tk) = uid) ∧
  (∀ uid1 uid2 p,
     _processors (client s) !! uid1 = Some p →
     _processors (client s) !! uid2 = Some p → uid1 = uid2).

(** The event a suspended call waits for, with the given answers. *)
Definition awaited (i : nat) (a : pc)
    (fetched : result (option (list Message)))
    (response : result ChatCompletionMessage) : option event :=
  match a with
  | AwaitLock _ => Some (LockGranted i)
  | AwaitHistory _ _ => Some (HistoryFetched i fetched)
  | AwaitPhase1 _ _ _ | AwaitPhase2 _ _ _ _ _ => Some (Completed i response)
  | Returned _ | Raised _ => None
  end.

(** Call [i] alone is resumed, at most [n] times, until it has returned; the
    [k]-th resumption from the end is answered with [fetched k] or
    [response k]. Nothing else is scheduled: no new message arrives. *)
Fixpoint drive (n : nat) (i : nat)
    (fetched : nat → result (option (list Message)))
    (response : nat → result ChatCompletionMessage) (s : state)
  : option state :=
  match n with
  | O => Some s
  | S n =>
      tk ← tasks s !! i;
      match awaited i (at_ tk) (fetched n) (response n) with
      | Some ev => s' ← step s ev; drive n i fetched response s'
      | None => Some s
      end
  end.


(** The resumptions that take a suspended call to its next restart check,
    the history store and the provider answering. *)
Definition to_checkpoint (i : nat) (a : pc) (history : option (list Message))
    (response : ChatCompletionMessage) : list event :=
  match a with
  | AwaitHistory _ _ =>
      [HistoryFetched i (Ok history); Completed i (Ok response)]
  | _ => [Completed i (Ok response)]
  end.

(** The snapshot a call works on, and the prompt of its phase-1 call. *)
Definition snapshot_of (a : pc) : option (list string) := snd <$> active a.

Definition prompt_of (a : pc) : option (list dict) :=
  match a with
  | AwaitPhase1 _ _ api | AwaitPhase2 _ _ api _ _ => Some api
  | _ => None
  end.

(** The user id a step works for: the caller's, or that of the call it
    resumes. *)
Definition user_of (s : state) (ev : event) : option Z :=
  match ev with
  | Call user _ => Some (User.id user)
  | LockGranted t | HistoryFetched t _ | Completed t _ =>
      (λ tk, User.id (user tk)) <$> tasks s !! t
  end.

(** As [returns_within], for a history store and a provider that answer every
    time: the call returns an outcome. *)
Definition answers_within (n : nat) (s : state) (i : nat) : Prop :=
  ∀ fetched response,
    (∀ k, ∃ history, fetched k = Ok history) →
    (∀ k, ∃ message, response k = Ok message) →
    ∃ s' outcome, drive n i fetched response s = Some s' ∧
                  at_ <$> tasks s' !! i = Some (Returned (Some outcome)).

(** A call that is through: it has returned, or something that is not an
    [Exception] has left it. *)
Definition ended (a : pc) : Prop :=
  match a with
  | Returned _ => True
  | Raised e => is_exception e = false
  | _ => False
  end.




(** The invariant of the reachable states. *)
Record Inv (s : state) : Prop := {
  inv_registry : ∀ uid p,
    _processors (client s) !! uid = Some p →
    ∃ proc, objects (client s) !! p = Some proc ∧ user_id proc = uid;
  inv_active : ∀ t tk p B,
    tasks s !! t = Some tk → active (at_ tk) = Some (p, B) →
    _processors (client s) !! User.id (user tk) = Some p ∧
    lock (deref (client s) p) = true ∧
    B `prefix_of` messages (deref (client s) p) ∧ B ≠ [];
  inv_unique : ∀ t1 t2 tk1 tk2 p B1 B2,
    tasks s !! t1 = Some tk1 → tasks s !! t2 = Some tk2 →
    active (at_ tk1) = Some (p, B1) → active (at_ tk2) = Some (p, B2) →
    t1 = t2;
  inv_holder : ∀ p proc,
    objects (client s) !! p = Some proc → lock proc = true →
    ∃ t tk B, tasks s !! t = Some tk ∧ active (at_ tk) = Some (p, B);
  inv_settled : ∀ t tk,
    tasks s !! t = Some tk →
    match at_ tk with
    | AwaitLock _ => False
    | Raised e => is_exception e = false
    | _ => True
    end;
  inv_prompt : ∀ t tk, tasks s !! t = Some tk → prompt_ok (at_ tk);
}.

(** ** Tool-call staging *)

Lemma process_tool_calls_from (tool_calls : list ChatCompletionMessageToolCall)
    (start : list dict) :
  foldl (fun updated_messages tool_call =>
           updated_messages ++ tool_call_turns tool_call) start tool_calls
  = start ++ (tool_calls ≫= tool_call_turns).
Proof.
  revert start. induction tool_calls as [|tc tcs IH]; intros start; simpl.
  - by rewrite app_nil_r.
  - rewrite IH. by rewrite <- app_assoc.
Qed.

Lemma process_tool_calls_eq messages tool_calls :
  _process_tool_calls messages tool_calls
  = messages ++ echo_turn tool_calls :: (tool_calls ≫= tool_call_turns).
Proof.
  unfold _process_tool_calls. rewrite process_tool_calls_from.
  by rewrite <- app_assoc.
Qed.

Lemma tool_call_turns_cases tool_call :
  tool_call_turns tool_call = [] ∨
  ∃ serialized, tool_call_turns tool_call = [tool_turn serialized (id tool_call)].
Proof.
  unfold tool_call_turns, try_tool_call, sync_bind.
  destruct (json_loads _) as [args|]; [|by left].
  destruct (tools_functions !! _) as [f|]; [|by left].
  destruct (f args) as [r|]; [|by left].
  destruct (json_dumps r) as [str|]; [|by left].
  right. by exists str.
Qed.



Lemma tool_call_turns_role tool_calls :
  Forall (λ turn, role turn = MessageRole.tool) (tool_calls ≫= tool_call_turns).
Proof.
  induction tool_calls as [|tc tcs IH]; simpl; [constructor|].
  apply Forall_app. split; [|done].
  destruct (tool_call_turns_cases tc) as [->|[str ->]]; repeat constructor.
Qed.

Lemma process_tool_calls_heap_loop (updated_messages : nat) tool_calls
    (σ : list_heap) :
  foldl (fun σ tool_call =>
           match try_tool_call tool_call with
           | Returns (Some turn) => list_append updated_messages turn σ
           | Returns None => σ
           | Raises _ => σ
           end) σ tool_calls
  = alter (λ elements, elements ++ (tool_calls ≫= tool_call_turns))
      updated_messages σ.
Proof.
  revert σ. induction tool_calls as [|tc tcs IH]; intros σ; simpl.
  - symmetry. apply list_alter_id. intros x. apply app_nil_r.
  - rewrite IH. unfold tool_call_turns, list_append.
    destruct (try_tool_call tc) as [[turn|]|]; simpl.
    + rewrite list_alter_alter_eq. apply list_alter_ext; [|done].
      intros x _. simpl. by rewrite <- app_assoc.
    + done.
    + done.
Qed.

(** C10. [_process_tool_calls] leaves the list object it is given as it was:
    it works on a copy, a new object, and the list it returns is the given
    elements followed by the echo turn and then tool turns only. No other list
    object changes either. *)
Theorem process_tool_calls_frame (σ : list_heap) (messages : nat)
    (elements : list dict) tool_calls :
  σ !! messages = Some elements →
  let r := _process_tool_calls_in_heap messages tool_calls σ in
  r.2 !! messages = Some elements
  ∧ r.1 ≠ messages
  ∧ (∀ other, other ≠ r.1 → r.2 !! other = σ !! other)
  ∧ r.2 !! r.1
    = Some (elements ++ echo_turn tool_calls :: (tool_calls ≫= tool_call_turns))
  ∧ r.2 !! r.1 = Some (_process_tool_calls elements tool_calls)
  ∧ Forall (λ turn, role turn = MessageRole.tool)
      (tool_calls ≫= tool_call_turns).
Proof.
  intros Hlook. simpl.
  unfold _process_tool_calls_in_heap, list_copy. simpl.
  rewrite process_tool_calls_heap_loop. unfold list_append.
  rewrite list_alter_alter_eq. rewrite Hlook. simpl.
  assert (Hlt : (messages < length σ)%nat) by (by eapply lookup_lt_Some).
  assert (Hnew :
    alter ((λ l, l ++ (tool_calls ≫= tool_call_turns))
             ∘ (λ l, l ++ [echo_turn tool_calls])) (length σ) (σ ++ [elements])
    !! length σ
    = Some (elements ++ echo_turn tool_calls
              :: (tool_calls ≫= tool_call_turns))).
  { rewrite list_lookup_alter_eq, lookup_app_r by lia.
    rewrite Nat.sub_diag. simpl. by rewrite <- app_assoc. }
  split_and!.
  - rewrite list_lookup_alter_ne by lia. by apply lookup_app_l_Some.
  - lia.
  - intros other Hother. rewrite list_lookup_alter_ne by done.
    destruct (decide (other < length σ)%nat).
    + by rewrite lookup_app_l.
    + rewrite !lookup_ge_None_2; [done|lia|]. rewrite length_app. simpl. lia.
  - exact Hnew.
  - rewrite process_tool_calls_eq. exact Hnew.
  - apply tool_call_turns_role.
Qed.

(** ** Prompt construction *)

Lemma format_conversation_history_eq (history : option (list Message)) :
  _format_conversation_history history
  = {| role := MessageRole.system;
       content := Some (VStr (get_system_prompt "default_system"));
       tool_calls := None; tool_call_id := None |}
    :: ((fun msg => {| role := msg_role msg; content := Some (msg_content msg);
                       tool_calls := None; tool_call_id := None |})
          <$> default [] history).
Proof. by destruct history as [[|m ms]|]. Qed.

(** For a snapshot no longer than the history, the prompt is the system turn,
    the history without its last |B| turns, and the user turn of the batch. *)
Lemma api_messages_long_history (history : list Message) (B : list string) :
  B ≠ [] → (length B ≤ length history)%nat →
  api_messages (_format_conversation_history (Some history)) B
  = _format_conversation_history
      (Some (take (length history - length B) history))
    ++ [user_turn B].
Proof.
  intros HB Hlen. unfold api_messages. f_equal.
  rewrite !format_conversation_history_eq. simpl.
  unfold slice_to. destruct B as [|b B]; [done|].
  cbn [length] in *.
  assert ((- Z.of_nat (S (length B)) <? 0) = true) as ->
    by (apply Z.ltb_lt; lia).
  rewrite length_fmap.
  replace (Z.to_nat (Z.of_nat (S (length history)) + - Z.of_nat (S (length B))))
    with (S (length history - S (length B))) by lia.
  simpl. by rewrite fmap_take.
Qed.

(** For a snapshot longer than the history, nothing of the formatted history
    is left, the system turn included. *)
Lemma api_messages_short_history (history : option (list Message))
    (B : list string) :
  (length (default [] history) < length B)%nat →
  api_messages (_format_conversation_history history) B = [user_turn B].
Proof.
  intros Hlen. unfold api_messages.
  rewrite format_conversation_history_eq. unfold slice_to.
  assert ((- Z.of_nat (length B) <? 0) = true) as -> by (apply Z.ltb_lt; lia).
  cbn [length]. rewrite length_fmap.
  replace (Z.to_nat _) with 0%nat by lia. done.
Qed.

Lemma api_messages_last formatted_messages (B : list string) :
  last (api_messages formatted_messages B) = Some (user_turn B).
Proof. unfold api_messages. apply last_snoc. Qed.

(** ** The outcome after tool calls *)

(** When every request has produced its tool turn, the slice of lines 229-231
    is the echo and the tool turns, and the outcome is the echo with the raw
    requests as its content, the tool turns reduced to role and content, and
    the final assistant turn. *)
Lemma outcome_when_all_resolve api tool_calls final :
  length (tool_calls ≫= tool_call_turns) = length tool_calls →
  echoed (slice_from (_process_tool_calls api tool_calls)
            (- (Z.of_nat (length tool_calls) + 1)))
  ++ [assistant_turn final]
  = assistant_turn (VStr (json_dumps_calls (serializable <$> tool_calls)))
    :: ((λ turn, {| role := role turn; content := Some (get (content turn));
                    tool_calls := None; tool_call_id := None |})
          <$> (tool_calls ≫= tool_call_turns))
    ++ [assistant_turn final].
Proof.
  intros Hall. rewrite process_tool_calls_eq. unfold slice_from.
  assert ((- (Z.of_nat (length tool_calls) + 1) <? 0) = true) as ->
    by (apply Z.ltb_lt; lia).
  rewrite length_app. cbn [length]. rewrite Hall.
  replace (Z.to_nat _) with (length api) by lia.
  rewrite drop_app_length. unfold echoed. rewrite imap_cons. simpl.
  f_equal. f_equal. rewrite <- imap_const. by apply imap_ext.
Qed.

(** ** What each stretch of [generate_response] does *)

Lemma deref_lookup self p proc : objects self !! p = Some proc → deref self p = proc.
Proof. unfold deref. by intros ->. Qed.

Lemma deref_altered_eq self f p proc :
  objects self !! p = Some proc → deref (altered self p f) p = f proc.
Proof.
  intros H. unfold deref, altered. simpl.
  by rewrite list_lookup_alter_eq, H.
Qed.

Lemma deref_altered_ne self f p q :
  p ≠ q → deref (altered self p f) q = deref self q.
Proof.
  intros H. unfold deref, altered. simpl. by rewrite list_lookup_alter_ne.
Qed.

Lemma altered_altered self f g p :
  altered (altered self p g) p f = altered self p (f ∘ g).
Proof. unfold altered. simpl. by rewrite list_alter_alter_eq. Qed.

Arguments altered : simpl never.
Arguments deref : simpl never.
Arguments _cleanup_processor : simpl never.

Ltac unfold_M :=
  unfold run_task, generate_response, enter_lock, under_lock, loop,
    after_history, after_phase1, after_phase2, loop_top, success, on_exception,
    _generate_completion, try_except, try_except_base, _check_new_messages,
    _get_processor, update, read,
    lift, raise, mbind, M_bind, mret, M_ret, fmap, M_fmap.

(** Under the lock, [_cleanup_processor] leaves the registry alone. *)
Lemma cleanup_locked self uid p :
  _processors self !! uid = Some p → lock (deref self p) = true →
  _cleanup_processor uid self = (Ok (), self).
Proof.
  intros Hreg Hlock. unfold _cleanup_processor. rewrite Hreg.
  unfold is_locked. rewrite Hlock. by rewrite andb_false_r.
Qed.

Section UnderLock.

Context (self : LLMClient) (user : User.t) (p : nat) (proc : MessageProcessor.t).
Hypothesis Hreg : _processors self !! User.id user = Some p.
Hypothesis Hobj : objects self !! p = Some proc.
Hypothesis Hlock : lock proc = true.

Lemma cleanup_cleared :
  _cleanup_processor (User.id user) (altered self p clear_messages)
  = (Ok (), altered self p clear_messages).
Proof.
  apply cleanup_locked with p; [done|].
  by rewrite (deref_altered_eq _ _ _ _ Hobj).
Qed.

Lemma resume_history_spec B fetched :
  run_task (under_lock p (loop user p (after_history p B fetched))) self
  = match fetched with
    | Ok history =>
        (AwaitPhase1 p B (api_messages (_format_conversation_history history) B),
         self)
    | Raise e =>
        if is_exception e
        then (Returned None, altered self p (set_lock false ∘ clear_messages))
        else (Raised e, altered self p (set_lock false))
    end.
Proof.
  destruct fetched as [history|[what|what]].
  - reflexivity.
  - unfold_M. simpl. rewrite cleanup_cleared. simpl.
    by rewrite altered_altered.
  - reflexivity.
Qed.

Lemma resume_phase1_spec B api response :
  run_task (under_lock p (loop user p (after_phase1 user p B api response))) self
  = match response with
    | Raise e =>
        (if is_exception e then Returned None else Raised e,
         altered self p (set_lock false))
    | Ok initial_response =>
        if bool_decide (length B < length (messages proc))%nat
        then (AwaitHistory p (messages proc), self)
        else
          match cc_tool_calls initial_response with
          | Some (tool_call :: tool_calls) =>
              (AwaitPhase2 p B api initial_response
                 (_process_tool_calls api (tool_call :: tool_calls)), self)
          | _ =>
              (Returned (Some [assistant_turn (cc_content initial_response)]),
               altered self p (set_lock false ∘ clear_messages))
          end
    end.
Proof.
  destruct response as [initial_response|[what|what]]; [|reflexivity..].
  unfold_M. simpl. rewrite (deref_lookup _ _ _ Hobj).
  case_bool_decide as Hnew.
  - simpl. rewrite (deref_lookup _ _ _ Hobj). unfold get_pending_messages.
    destruct (messages proc); [simpl in Hnew; lia|done].
  - destruct (cc_tool_calls initial_response) as [[|tool_call tool_calls]|];
      try reflexivity;
      unfold_M; simpl; rewrite cleanup_cleared; simpl;
      by rewrite altered_altered.
Qed.

Lemma resume_phase2_spec B initial_response updated_messages response :
  run_task
    (under_lock p
       (loop user p
          (after_phase2 user p B initial_response updated_messages response)))
    self
  = match response with
    | Raise e =>
        (if is_exception e then Returned None else Raised e,
         altered self p (set_lock false))
    | Ok final_response =>
        if bool_decide (length B < length (messages proc))%nat
        then (AwaitHistory p (messages proc), self)
        else
          (Returned
             (Some
                (echoed
                   (slice_from updated_messages
                      (- (Z.of_nat
                            (length (default [] (cc_tool_calls initial_response)))
                          + 1)))
                 ++ [assistant_turn (cc_content final_response)])),
           altered self p (set_lock false ∘ clear_messages))
    end.
Proof.
  destruct response as [final_response|[what|what]]; [|reflexivity..].
  unfold_M. simpl. rewrite (deref_lookup _ _ _ Hobj).
  case_bool_decide as Hnew.
  - simpl. rewrite (deref_lookup _ _ _ Hobj). unfold get_pending_messages.
    destruct (messages proc); [simpl in Hnew; lia|done].
  - unfold_M. simpl. rewrite cleanup_cleared. simpl.
    by rewrite altered_altered.
Qed.

End UnderLock.

Lemma call_known_spec self user message p proc :
  _processors self !! User.id user = Some p →
  objects self !! p = Some proc →
  run_task (generate_response user message) self
  = if lock proc
    then (Returned None, altered self p (λ x, add_message x message))
    else (AwaitHistory p (messages proc ++ [message]),
          altered self p (set_lock true ∘ (λ x, add_message x message))).
Proof.
  intros Hreg Hobj. unfold_M. rewrite Hreg. simpl.
  rewrite (deref_altered_eq _ _ _ _ Hobj). unfold is_locked at 1. simpl.
  destruct (lock proc) eqn:Hlock; [done|].
  simpl. rewrite (deref_altered_eq _ _ _ _ Hobj). unfold is_locked. simpl.
  rewrite Hlock. simpl. rewrite altered_altered.
  rewrite (deref_altered_eq _ _ _ _ Hobj). simpl.
  by destruct (messages proc).
Qed.

Lemma call_new_spec self user message :
  _processors self !! User.id user = None →
  run_task (generate_response user message) self
  = (AwaitHistory (length (objects self)) [message],
     registered self (User.id user) message).
Proof.
  intros Hreg. unfold_M. rewrite Hreg. simpl.
  set (self' := {| objects := objects self ++ [__init__ (User.id user)];
                   _processors := <[User.id user:=length (objects self)]>
                                    (_processors self) |}).
  assert (Hobj : objects self' !! length (objects self)
                 = Some (__init__ (User.id user))).
  { simpl. rewrite lookup_app_r by lia. by rewrite Nat.sub_diag. }
  rewrite (deref_altered_eq _ _ _ _ Hobj). simpl.
  rewrite (deref_altered_eq _ _ _ _ Hobj). simpl.
  rewrite altered_altered. rewrite (deref_altered_eq _ _ _ _ Hobj). simpl.
  unfold registered, altered. simpl. f_equal. f_equal.
  rewrite <- (Nat.add_0_r (length (objects self))) at 1.
  by rewrite alter_app_r.
Qed.

(** ** The steps of a state that satisfies the invariant *)

Lemma active_facts s t tk p B :
  Inv s → tasks s !! t = Some tk → active (at_ tk) = Some (p, B) →
  ∃ proc,
    _processors (client s) !! User.id (user tk) = Some p ∧
    objects (client s) !! p = Some proc ∧
    lock proc = true ∧ B `prefix_of` messages proc ∧ B ≠ [] ∧
    user_id proc = User.id (user tk).
Proof.
  intros HI Ht Ha.
  destruct (inv_active s HI t tk p B Ht Ha) as (Hreg & Hlock & Hpre & Hne).
  destruct (inv_registry s HI _ _ Hreg) as (proc & Hobj & Huid).
  rewrite (deref_lookup _ _ _ Hobj) in Hlock, Hpre.
  by exists proc.
Qed.

Lemma step_history_eq s t tk p B proc fetched :
  tasks s !! t = Some tk → at_ tk = AwaitHistory p B →
  _processors (client s) !! User.id (user tk) = Some p →
  objects (client s) !! p = Some proc → lock proc = true →
  step s (HistoryFetched t fetched)
  = Some (resumed s t tk
            match fetched with
            | Ok history =>
                (AwaitPhase1 p B
                   (api_messages (_format_conversation_history history) B),
                 client s)
            | Raise e =>
                if is_exception e
                then (Returned None,
                      altered (client s) p (set_lock false ∘ clear_messages))
                else (Raised e, altered (client s) p (set_lock false))
            end).
Proof.
  intros Ht Hat Hreg Hobj Hlock. unfold step. simpl. rewrite Ht. simpl.
  rewrite Hat. simpl.
  rewrite (resume_history_spec _ _ _ _ Hreg Hobj Hlock).
  by destruct fetched as [?|[?|?]].
Qed.

Lemma step_phase1_eq s t tk p B api proc response :
  tasks s !! t = Some tk → at_ tk = AwaitPhase1 p B api →
  _processors (client s) !! User.id (user tk) = Some p →
  objects (client s) !! p = Some proc → lock proc = true →
  step s (Completed t response)
  = Some (resumed s t tk
            match response with
            | Raise e =>
                (if is_exception e then Returned None else Raised e,
                 altered (client s) p (set_lock false))
            | Ok initial_response =>
                if bool_decide (length B < length (messages proc))%nat
                then (AwaitHistory p (messages proc), client s)
                else
                  match cc_tool_calls initial_response with
                  | Some (tool_call :: tool_calls) =>
                      (AwaitPhase2 p B api initial_response
                         (_process_tool_calls api (tool_call :: tool_calls)),
                       client s)
                  | _ =>
                      (Returned
                         (Some [assistant_turn (cc_content initial_response)]),
                       altered (client s) p (set_lock false ∘ clear_messages))
                  end
            end).
Proof.
  intros Ht Hat Hreg Hobj Hlock. unfold step. simpl. rewrite Ht. simpl.
  rewrite Hat. simpl.
  rewrite (resume_phase1_spec _ _ _ _ Hreg Hobj Hlock).
  destruct response as [initial_response|]; [|done].
  case_bool_decide; [done|].
  by destruct (cc_tool_calls initial_response) as [[|??]|].
Qed.

Lemma step_phase2_eq s t tk p B api initial_response updated proc response :
  tasks s !! t = Some tk →
  at_ tk = AwaitPhase2 p B api initial_response updated →
  _processors (client s) !! User.id (user tk) = Some p →
  objects (client s) !! p = Some proc → lock proc = true →
  step s (Completed t response)
  = Some (resumed s t tk
            match response with
            | Raise e =>
                (if is_exception e then Returned None else Raised e,
                 altered (client s) p (set_lock false))
            | Ok final_response =>
                if bool_decide (length B < length (messages proc))%nat
                then (AwaitHistory p (messages proc), client s)
                else
                  (Returned
                     (Some
                        (echoed
                           (slice_from updated
                              (- (Z.of_nat
                                    (length
                                       (default []
                                          (cc_tool_calls initial_response)))
                                  + 1)))
                         ++ [assistant_turn (cc_content final_response)])),
                   altered (client s) p (set_lock false ∘ clear_messages))
            end).
Proof.
  intros Ht Hat Hreg Hobj Hlock. unfold step. simpl. rewrite Ht. simpl.
  rewrite Hat. simpl.
  rewrite (resume_phase2_spec _ _ _ _ Hreg Hobj Hlock).
  destruct response as [final_response|]; [|done].
  by case_bool_decide.
Qed.

Lemma step_call_eq s user message :
  step s (Call user message)
  = Some {| client := (run_task (generate_response user message) (client s)).2;
            tasks := tasks s
                     ++ [ {| user := user;
                             at_ := (run_task (generate_response user message)
                                       (client s)).1 |} ] |}.
Proof. unfold step. by destruct (run_task _ _). Qed.

(** A resumption is a step only of a call that waits for just that. *)
Lemma step_resume_inv s ev t s' :
  target ev = Some t → step s ev = Some s' →
  ∃ tk, tasks s !! t = Some tk ∧
    match ev, at_ tk with
    | LockGranted _, AwaitLock _
    | HistoryFetched _ _, AwaitHistory _ _
    | Completed _ _, AwaitPhase1 _ _ _
    | Completed _ _, AwaitPhase2 _ _ _ _ _ => True
    | _, _ => False
    end.
Proof.
  intros Htarget Hstep. destruct ev as [| t0 | t0 ? | t0 ?]; simpl in *;
    try done; simplify_eq;
    (destruct (tasks s !! t) as [tk|] eqn:Ht; simpl in Hstep; [|done]);
    exists tk; (split; [done|]); by destruct (at_ tk).
Qed.

(** ** The invariant is kept *)

Lemma inv_init : Inv init.
Proof. split; simpl; intros; simplify_eq; try done. Qed.

Lemma lookup_insert_task (l : list task) (i j : nat) (x y : task) :
  <[i := x]> l !! j = Some y → (j = i ∧ y = x) ∨ (j ≠ i ∧ l !! j = Some y).
Proof.
  intros H. apply list_lookup_insert_Some in H as [(-> & <- & _)|[Hneq Hl]];
    [by left|right]. split; [congruence|done].
Qed.

Lemma lookup_snoc_task (l : list task) (j : nat) (x y : task) :
  (l ++ [x]) !! j = Some y →
  (j = length l ∧ y = x) ∨ ((j < length l)%nat ∧ l !! j = Some y).
Proof.
  intros H. apply lookup_snoc_Some in H as [[? ?]|[-> <-]]; [by right|by left].
Qed.

(** The holder of a lock moves on to another suspension of the same
    attempt, or to the first one of a new attempt. *)
Lemma inv_suspend s i tk p B a' B' :
  Inv s → tasks s !! i = Some tk → active (at_ tk) = Some (p, B) →
  active a' = Some (p, B') →
  B' `prefix_of` messages (deref (client s) p) → B' ≠ [] → prompt_ok a' →
  Inv (resumed s i tk (a', client s)).
Proof.
  intros HI Ht Ha Ha' Hpre Hne Hprompt.
  destruct (inv_active s HI i tk p B Ht Ha) as (Hreg & Hlock & _ & _).
  unfold resumed. split; simpl.
  - apply (inv_registry s HI).
  - intros j tk' p' B0 Hl Hact.
    apply lookup_insert_task in Hl as [[-> ->]|[Hneq Hl]]; simpl in *.
    + by simplify_eq.
    + by apply (inv_active s HI j tk' p' B0).
  - intros j1 j2 tk1 tk2 p0 B1 B2 Hl1 Hl2 H1 H2.
    apply lookup_insert_task in Hl1 as [[-> ->]|[Hneq1 Hl1]];
    apply lookup_insert_task in Hl2 as [[-> ->]|[Hneq2 Hl2]];
      simpl in *; simplify_eq; try done.
    + symmetry. by apply (inv_unique s HI j2 i tk2 tk p B2 B).
    + by apply (inv_unique s HI j1 i tk1 tk p B1 B).
    + by apply (inv_unique s HI j1 j2 tk1 tk2 p0 B1 B2).
  - intros p0 proc0 Hobj Hl.
    destruct (inv_holder s HI p0 proc0 Hobj Hl) as (j & tk0 & B0 & Ht0 & Ha0).
    destruct (decide (j = i)) as [->|Hneq].
    + simplify_eq. exists i, {| user := user tk; at_ := a' |}, B'.
      split; [|done]. apply list_lookup_insert_eq. by eapply lookup_lt_Some.
    + exists j, tk0, B0. split; [|done]. by rewrite list_lookup_insert_ne.
  - intros j tk' Hl.
    apply lookup_insert_task in Hl as [[-> ->]|[Hneq Hl]]; simpl.
    + by destruct a'.
    + by apply (inv_settled s HI j).
  - intros j tk' Hl.
    apply lookup_insert_task in Hl as [[-> ->]|[Hneq Hl]]; simpl.
    + done.
    + by apply (inv_prompt s HI j).
Qed.

(** The holder of a lock is through: its processor is unlocked on the
    way. *)
Lemma inv_return s i tk p B F a :
  Inv s → tasks s !! i = Some tk → active (at_ tk) = Some (p, B) →
  ended a →
  (∀ x, lock (F x) = false) → (∀ x, user_id (F x) = user_id x) →
  Inv (resumed s i tk (a, altered (client s) p F)).
Proof.
  intros HI Ht Ha Hended Hunlock Huid.
  assert (Hidle : active a = None) by (by destruct a).
  unfold resumed. split; simpl.
  - intros uid p0 Hreg.
    destruct (inv_registry s HI uid p0 Hreg) as (proc & Hobj & Hu).
    destruct (decide (p = p0)) as [->|Hneq].
    + exists (F proc). rewrite list_lookup_alter_eq, Hobj. simpl.
      by rewrite Huid.
    + exists proc. by rewrite list_lookup_alter_ne.
  - intros j tk' p' B0 Hl Hact.
    apply lookup_insert_task in Hl as [[-> ->]|[Hneq Hl]];
      simpl in *; [congruence|].
    assert (p ≠ p') as Hp.
    { intros <-. apply Hneq. by apply (inv_unique s HI j i tk' tk p B0 B). }
    rewrite (deref_altered_ne _ _ _ _ Hp).
    by apply (inv_active s HI j tk' p' B0).
  - intros j1 j2 tk1 tk2 p0 B1 B2 Hl1 Hl2 H1 H2.
    apply lookup_insert_task in Hl1 as [[-> ->]|[Hneq1 Hl1]];
    apply lookup_insert_task in Hl2 as [[-> ->]|[Hneq2 Hl2]];
      simpl in *; try congruence.
    by apply (inv_unique s HI j1 j2 tk1 tk2 p0 B1 B2).
  - intros p0 proc0 Hobj Hl.
    destruct (decide (p = p0)) as [->|Hneq].
    + rewrite list_lookup_alter_eq in Hobj.
      destruct (objects (client s) !! p0) as [x|]; simplify_eq/=.
      by rewrite Hunlock in Hl.
    + rewrite list_lookup_alter_ne in Hobj by done.
      destruct (inv_holder s HI p0 proc0 Hobj Hl) as (j & tk0 & B0 & Ht0 & Ha0).
      exists j, tk0, B0. split; [|done].
      rewrite list_lookup_insert_ne; [done|]. intros <-.
      rewrite Ht in Ht0. injection Ht0 as <-.
      rewrite Ha in Ha0. injection Ha0 as Hp0 _. by apply Hneq.
  - intros j tk' Hl.
    apply lookup_insert_task in Hl as [[-> ->]|[Hneq Hl]]; simpl.
    + by destruct a.
    + by apply (inv_settled s HI j).
  - intros j tk' Hl.
    apply lookup_insert_task in Hl as [[-> ->]|[Hneq Hl]]; simpl.
    + by destruct a.
    + by apply (inv_prompt s HI j).
Qed.

(** A call that finds the lock held leaves its message and returns. *)
Lemma inv_call_deferred s user message p proc :
  Inv s → _processors (client s) !! User.id user = Some p →
  objects (client s) !! p = Some proc →
  Inv {| client := altered (client s) p (λ x, add_message x message);
         tasks := tasks s ++ [ {| user := user; at_ := Returned None |} ] |}.
Proof.
  intros HI Hreg Hobj. split; simpl.
  - intros uid p0 Hreg0.
    destruct (inv_registry s HI uid p0 Hreg0) as (proc0 & Hobj0 & Hu).
    destruct (decide (p = p0)) as [->|Hneq].
    + exists (add_message proc0 message).
      by rewrite list_lookup_alter_eq, Hobj0.
    + exists proc0. by rewrite list_lookup_alter_ne.
  - intros j tk' p' B0 Hl Hact.
    apply lookup_snoc_task in Hl as [[-> ->]|[Hlt Hl]]; simpl in *; [done|].
    destruct (inv_active s HI j tk' p' B0 Hl Hact) as (Hr & Hlk & Hpre & Hne).
    destruct (decide (p = p')) as [<-|Hneq].
    + rewrite (deref_altered_eq _ _ _ _ Hobj).
      rewrite (deref_lookup _ _ _ Hobj) in Hlk, Hpre. simpl.
      split_and!; try done. by apply prefix_app_r.
    + by rewrite (deref_altered_ne _ _ _ _ Hneq).
  - intros j1 j2 tk1 tk2 p0 B1 B2 Hl1 Hl2 H1 H2.
    apply lookup_snoc_task in Hl1 as [[-> ->]|[Hlt1 Hl1]];
    apply lookup_snoc_task in Hl2 as [[-> ->]|[Hlt2 Hl2]];
      simpl in *; simplify_eq.
    by apply (inv_unique s HI j1 j2 tk1 tk2 p0 B1 B2).
  - intros p0 proc0 Hobj0 Hl.
    assert (∃ proc1, objects (client s) !! p0 = Some proc1 ∧ lock proc1 = true)
      as (proc1 & Hobj1 & Hl1).
    { destruct (decide (p = p0)) as [->|Hneq].
      - rewrite list_lookup_alter_eq, Hobj in Hobj0. simplify_eq/=. eauto.
      - rewrite list_lookup_alter_ne in Hobj0 by done. eauto. }
    destruct (inv_holder s HI p0 proc1 Hobj1 Hl1) as (j & tk0 & B0 & Ht0 & Ha0).
    exists j, tk0, B0. split; [|done]. by apply lookup_app_l_Some.
  - intros j tk' Hl.
    apply lookup_snoc_task in Hl as [[-> ->]|[Hlt Hl]]; simpl; [done|].
    by apply (inv_settled s HI j).
  - intros j tk' Hl.
    apply lookup_snoc_task in Hl as [[-> ->]|[Hlt Hl]]; simpl; [done|].
    by apply (inv_prompt s HI j).
Qed.

(** A call that finds the lock free takes it and starts an attempt. *)
Lemma inv_call_start s user message p proc :
  Inv s → _processors (client s) !! User.id user = Some p →
  objects (client s) !! p = Some proc → lock proc = false →
  Inv {| client := altered (client s) p
                     (set_lock true ∘ (λ x, add_message x message));
         tasks := tasks s
                  ++ [ {| user := user;
                          at_ := AwaitHistory p (messages proc ++ [message]) |} ]
      |}.
Proof.
  intros HI Hreg Hobj Hfree.
  assert (Hidle : ∀ j tk' B0,
            tasks s !! j = Some tk' → active (at_ tk') ≠ Some (p, B0)).
  { intros j tk' B0 Hl Hact.
    destruct (inv_active s HI j tk' p B0 Hl Hact) as (_ & Hlk & _).
    rewrite (deref_lookup _ _ _ Hobj) in Hlk. congruence. }
  split; simpl.
  - intros uid p0 Hreg0.
    destruct (inv_registry s HI uid p0 Hreg0) as (proc0 & Hobj0 & Hu).
    destruct (decide (p = p0)) as [->|Hneq].
    + eexists. rewrite list_lookup_alter_eq, Hobj0. simpl. split; [done|].
      by simplify_eq.
    + exists proc0. by rewrite list_lookup_alter_ne.
  - intros j tk' p' B0 Hl Hact.
    apply lookup_snoc_task in Hl as [[-> ->]|[Hlt Hl]]; simpl in *.
    + simplify_eq. rewrite (deref_altered_eq _ _ _ _ Hobj). simpl.
      split_and!; try done. by destruct (messages proc).
    + destruct (decide (p = p')) as [<-|Hneq]; [by destruct (Hidle j tk' B0)|].
      rewrite (deref_altered_ne _ _ _ _ Hneq).
      by apply (inv_active s HI j tk' p' B0).
  - intros j1 j2 tk1 tk2 p0 B1 B2 Hl1 Hl2 H1 H2.
    apply lookup_snoc_task in Hl1 as [[-> ->]|[Hlt1 Hl1]];
    apply lookup_snoc_task in Hl2 as [[-> ->]|[Hlt2 Hl2]];
      simpl in *; simplify_eq; try done.
    + by destruct (Hidle j2 tk2 B2).
    + by destruct (Hidle j1 tk1 B1).
    + by apply (inv_unique s HI j1 j2 tk1 tk2 p0 B1 B2).
  - intros p0 proc0 Hobj0 Hl.
    destruct (decide (p = p0)) as [<-|Hneq].
    + eexists (length (tasks s)), _, _. split.
      * rewrite lookup_app_r by lia. by rewrite Nat.sub_diag.
      * done.
    + rewrite list_lookup_alter_ne in Hobj0 by done.
      destruct (inv_holder s HI p0 proc0 Hobj0 Hl) as (j & tk0 & B0 & Ht0 & Ha0).
      exists j, tk0, B0. split; [|done]. by apply lookup_app_l_Some.
  - intros j tk' Hl.
    apply lookup_snoc_task in Hl as [[-> ->]|[Hlt Hl]]; simpl; [done|].
    by apply (inv_settled s HI j).
  - intros j tk' Hl.
    apply lookup_snoc_task in Hl as [[-> ->]|[Hlt Hl]]; simpl; [done|].
    by apply (inv_prompt s HI j).
Qed.

Lemma deref_registered_new self uid message :
  deref (registered self uid message) (length (objects self))
  = {| user_id := uid; lock := true; messages := [message] |}.
Proof.
  unfold deref, registered. simpl. rewrite lookup_app_r by lia.
  by rewrite Nat.sub_diag.
Qed.

Lemma deref_registered_old self uid message q proc :
  objects self !! q = Some proc →
  deref (registered self uid message) q = deref self q.
Proof.
  intros Hq. unfold deref, registered. simpl.
  by rewrite (lookup_app_l_Some _ _ _ _ Hq), Hq.
Qed.

(** The first call for a user id creates its processor and starts. *)
Lemma inv_call_new s user message :
  Inv s → _processors (client s) !! User.id user = None →
  Inv {| client := registered (client s) (User.id user) message;
         tasks := tasks s
                  ++ [ {| user := user;
                          at_ := AwaitHistory (length (objects (client s)))
                                   [message] |} ] |}.
Proof.
  intros HI Hreg.
  split; simpl.
  - intros uid p0 Hreg0.
    apply lookup_insert_Some in Hreg0 as [[<- <-]|[Hneq Hreg0]].
    + eexists. split.
      * rewrite lookup_app_r by lia. by rewrite Nat.sub_diag.
      * done.
    + destruct (inv_registry s HI uid p0 Hreg0) as (proc0 & Hobj0 & Hu).
      exists proc0. split; [|done]. by apply lookup_app_l_Some.
  - intros j tk' p' B0 Hl Hact.
    apply lookup_snoc_task in Hl as [[-> ->]|[Hlt Hl]]; simpl in *.
    + simplify_eq. rewrite lookup_insert_eq.
      rewrite deref_registered_new. simpl. done.
    + destruct (active_facts s j tk' p' B0 HI Hl Hact)
        as (proc0 & Hr & Hobj0 & Hlk & Hpre & Hne & _).
      rewrite lookup_insert_ne by congruence.
      rewrite (deref_registered_old _ _ _ _ _ Hobj0).
      rewrite (deref_lookup _ _ _ Hobj0). done.
  - intros j1 j2 tk1 tk2 p0 B1 B2 Hl1 Hl2 H1 H2.
    apply lookup_snoc_task in Hl1 as [[-> ->]|[Hlt1 Hl1]];
    apply lookup_snoc_task in Hl2 as [[-> ->]|[Hlt2 Hl2]];
      simpl in *; simplify_eq; try done.
    + destruct (active_facts s j2 tk2 _ B2 HI Hl2 H2) as (? & _ & Hobj0 & _).
      apply lookup_lt_Some in Hobj0. lia.
    + destruct (active_facts s j1 tk1 _ B1 HI Hl1 H1) as (? & _ & Hobj0 & _).
      apply lookup_lt_Some in Hobj0. lia.
    + by apply (inv_unique s HI j1 j2 tk1 tk2 p0 B1 B2).
  - intros p0 proc0 Hobj0 Hl.
    apply lookup_snoc_Some in Hobj0 as [[Hlt Hobj0]|[-> <-]].
    + destruct (inv_holder s HI p0 proc0 Hobj0 Hl) as (j & tk0 & B0 & Ht0 & Ha0).
      exists j, tk0, B0. split; [|done]. by apply lookup_app_l_Some.
    + eexists (length (tasks s)), _, _. split.
      * rewrite lookup_app_r by lia. by rewrite Nat.sub_diag.
      * done.
  - intros j tk' Hl.
    apply lookup_snoc_task in Hl as [[-> ->]|[Hlt Hl]]; simpl; [done|].
    by apply (inv_settled s HI j).
  - intros j tk' Hl.
    apply lookup_snoc_task in Hl as [[-> ->]|[Hlt Hl]]; simpl; [done|].
    by apply (inv_prompt s HI j).
Qed.

(** What a resumption does to the state, whichever call it resumes: the
    call stays with its processor and suspends again, the client untouched; or
    it is through, and only its own processor changes, unlocked. *)
Lemma step_resume_shape s ev i s' :
  Inv s → target ev = Some i → step s ev = Some s' →
  ∃ tk p B proc,
    tasks s !! i = Some tk ∧ active (at_ tk) = Some (p, B) ∧
    _processors (client s) !! User.id (user tk) = Some p ∧
    objects (client s) !! p = Some proc ∧
    ((∃ a' B', s' = resumed s i tk (a', client s) ∧
        active a' = Some (p, B') ∧
        B' `prefix_of` messages proc ∧ B' ≠ [] ∧ prompt_ok a')
     ∨ (∃ a F, s' = resumed s i tk (a, altered (client s) p F) ∧ ended a ∧
          (∀ x, lock (F x) = false) ∧ (∀ x, user_id (F x) = user_id x))).
Proof.
  intros HI Htarget Hstep.
  destruct (step_resume_inv s ev i s' Htarget Hstep) as (tk & Ht & Hat).
  pose proof (inv_settled s HI i tk Ht) as Hsettled.
  pose proof (inv_prompt s HI i tk Ht) as Hprompt.
  destruct (at_ tk) as [|p B|p B api|p B api initial updated| |] eqn:Hpc;
    try done; try (by destruct ev).
  - destruct ev as [| | j fetched |]; try done. simpl in Htarget. simplify_eq.
    assert (Hact : active (at_ tk) = Some (p, B)) by (by rewrite Hpc).
    destruct (active_facts s i tk p B HI Ht Hact)
      as (proc & Hreg & Hobj & Hlock & Hpre & Hne & _).
    rewrite (step_history_eq s i tk p B proc fetched Ht Hpc Hreg Hobj Hlock)
      in Hstep. simplify_eq.
    exists tk, p, B, proc. rewrite Hpc. split_and!; try done.
    destruct fetched as [history|[what|what]].
    + left.
      exists (AwaitPhase1 p B
                (api_messages (_format_conversation_history history) B)), B.
      split_and!; try done. simpl. by eexists.
    + right. by eexists _, _.
    + right. by eexists _, _.
  - destruct ev as [| | | j response]; try done. simpl in Htarget. simplify_eq.
    assert (Hact : active (at_ tk) = Some (p, B)) by (by rewrite Hpc).
    destruct (active_facts s i tk p B HI Ht Hact)
      as (proc & Hreg & Hobj & Hlock & Hpre & Hne & _).
    rewrite (step_phase1_eq s i tk p B api proc response
               Ht Hpc Hreg Hobj Hlock) in Hstep. simplify_eq.
    exists tk, p, B, proc. rewrite Hpc. split_and!; try done.
    destruct response as [initial_response|[what|what]];
      [|right; by eexists _, _..].
    case_bool_decide as Hnew.
    + left. exists (AwaitHistory p (messages proc)), (messages proc).
      split_and!; try done.
      destruct (messages proc); simpl in *; [lia|done].
    + destruct (cc_tool_calls initial_response) as [[|tc tcs]|] eqn:Htc;
        try (right; by eexists _, _).
      left.
      exists (AwaitPhase2 p B api initial_response
                (_process_tool_calls api (tc :: tcs))), B.
      split_and!; try done.
      simpl. split; [done|]. by exists tc, tcs.
  - destruct ev as [| | | j response]; try done. simpl in Htarget. simplify_eq.
    assert (Hact : active (at_ tk) = Some (p, B)) by (by rewrite Hpc).
    destruct (active_facts s i tk p B HI Ht Hact)
      as (proc & Hreg & Hobj & Hlock & Hpre & Hne & _).
    rewrite (step_phase2_eq s i tk p B api initial updated proc response
               Ht Hpc Hreg Hobj Hlock) in Hstep. simplify_eq.
    exists tk, p, B, proc. rewrite Hpc. split_and!; try done.
    destruct response as [final_response|[what|what]];
      [|right; by eexists _, _..].
    case_bool_decide as Hnew; [|right; by eexists _, _].
    left. exists (AwaitHistory p (messages proc)), (messages proc).
    split_and!; try done.
    destruct (messages proc); simpl in *; [lia|done].
Qed.

(** What a new call does to the state. *)
Lemma step_call_shape s u message :
  Inv s →
  match _processors (client s) !! User.id u with
  | Some p =>
      ∃ proc, objects (client s) !! p = Some proc ∧ user_id proc = User.id u ∧
        step s (Call u message)
        = Some (if lock proc
                then {| client := altered (client s) p
                                    (λ x, add_message x message);
                        tasks := tasks s
                                 ++ [ {| user := u; at_ := Returned None |} ] |}
                else {| client := altered (client s) p
                                    (set_lock true
                                       ∘ (λ x, add_message x message));
                        tasks := tasks s
                                 ++ [ {| user := u;
                                         at_ := AwaitHistory p
                                                  (messages proc ++ [message])
                                      |} ] |})
  | None =>
      step s (Call u message)
      = Some {| client := registered (client s) (User.id u) message;
                tasks := tasks s
                         ++ [ {| user := u;
                                 at_ := AwaitHistory
                                          (length (objects (client s)))
                                          [message] |} ] |}
  end.
Proof.
  intros HI. rewrite step_call_eq.
  destruct (_processors (client s) !! User.id u) as [p|] eqn:Hreg.
  - destruct (inv_registry s HI _ _ Hreg) as (proc & Hobj & Hu).
    exists proc. split_and!; try done.
    rewrite (call_known_spec _ _ message _ _ Hreg Hobj).
    by destruct (lock proc).
  - by rewrite (call_new_spec _ _ message Hreg).
Qed.

Lemma step_inv s ev s' : Inv s → step s ev = Some s' → Inv s'.
Proof.
  intros HI Hstep. destruct (target ev) as [i|] eqn:Htarget.
  - destruct (step_resume_shape s ev i s' HI Htarget Hstep)
      as (tk & p & B & proc & Ht & Hact & Hreg & Hobj
          & [(a' & B' & -> & Ha' & Hpre & Hne & Hprompt)
            |(a & F & -> & Hended & Hunlock & Huid)]).
    + eapply inv_suspend; try done. by rewrite (deref_lookup _ _ _ Hobj).
    + by eapply inv_return.
  - destruct ev as [u message| | |]; try done.
    pose proof (step_call_shape s u message HI) as Hshape.
    destruct (_processors (client s) !! User.id u) as [p|] eqn:Hreg.
    + destruct Hshape as (proc & Hobj & Hu & Heq).
      rewrite Heq in Hstep. simplify_eq.
      destruct (lock proc) eqn:Hlock.
      * by eapply inv_call_deferred.
      * by apply inv_call_start.
    + rewrite Hshape in Hstep. simplify_eq. by apply inv_call_new.
Qed.

Lemma run_inv evs : ∀ s s', Inv s → run s evs = Some s' → Inv s'.
Proof.
  induction evs as [|ev evs IH]; intros s s' HI Hrun; simpl in Hrun.
  - by simplify_eq.
  - destruct (step s ev) as [s1|] eqn:Hstep; simpl in Hrun; [|done].
    eapply IH; [|done]. by eapply step_inv.
Qed.

Lemma reachable_inv s : reachable s → Inv s.
Proof. intros [evs Hrun]. eapply run_inv; [apply inv_init|done]. Qed.

Lemma run_cons s ev evs : run s (ev :: evs) = s' ← step s ev; run s' evs.
Proof. done. Qed.

Arguments step : simpl never.

Lemma run_app evs1 evs2 s :
  run s (evs1 ++ evs2) = s' ← run s evs1; run s' evs2.
Proof.
  revert s. induction evs1 as [|ev evs1 IH]; intros s; simpl; [done|].
  destruct (step s ev); simpl; [apply IH|done].
Qed.

Lemma reachable_run s evs s' : reachable s → run s evs = Some s' → reachable s'.
Proof.
  intros [evs0 H0] Hrun. exists (evs0 ++ evs). rewrite run_app, H0. done.
Qed.

(** ** Mutual exclusion *)

(** C6. Mutual exclusion. In every state that a schedule of calls and
    resumptions reaches, at most one call per user id is past the lock; no
    call is ever suspended waiting for a lock, so calls of distinct user ids
    never wait on each other; and a user's lock is held exactly while one call
    of that user is past it, distinct user ids having distinct processors. *)
Theorem mutual_exclusion s :
  reachable s →
  one_generation_per_user s ∧ nobody_waits s ∧ locks_have_holders s.
Proof.
  intros Hreach. pose proof (reachable_inv s Hreach) as HI.
  split_and!.
  - intros i j tki tkj pi Bi pj Bj Hi Hj Hai Haj Huid.
    destruct (inv_active s HI i tki pi Bi Hi Hai) as (Hri & _).
    destruct (inv_active s HI j tkj pj Bj Hj Haj) as (Hrj & _).
    rewrite Huid in Hri. simplify_eq.
    by eapply (inv_unique s HI i j tki tkj).
  - intros i tk p Hi Hat. pose proof (inv_settled s HI i tk Hi) as Hs.
    by rewrite Hat in Hs.
  - split.
    + intros uid p Hreg.
      destruct (inv_registry s HI uid p Hreg) as (proc & Hobj & Hu).
      rewrite (deref_lookup _ _ _ Hobj). split.
      * intros Hlock.
        destruct (inv_holder s HI p proc Hobj Hlock) as (i & tk & B & Hi & Ha).
        exists i, tk, B. split_and!; try done.
        destruct (inv_active s HI i tk p B Hi Ha) as (Hr & _).
        destruct (inv_registry s HI _ _ Hr) as (proc' & Hobj' & Hu').
        by simplify_eq.
      * intros (i & tk & B & Hi & Ha & _).
        destruct (inv_active s HI i tk p B Hi Ha) as (_ & Hlock & _).
        by rewrite (deref_lookup _ _ _ Hobj) in Hlock.
    + intros uid1 uid2 p H1 H2.
      destruct (inv_registry s HI uid1 p H1) as (proc1 & Hobj1 & Hu1).
      destruct (inv_registry s HI uid2 p H2) as (proc2 & Hobj2 & Hu2).
      by simplify_eq.
Qed.

(** ** What leaves a call *)





























Lemma resumed_lookup s i tk out :
  tasks s !! i = Some tk →
  tasks (resumed s i tk out) !! i = Some {| user := user tk; at_ := out.1 |}.
Proof.
  intros Hi. unfold resumed. simpl. apply list_lookup_insert_eq.
  by eapply lookup_lt_Some.
Qed.


(** *** A call whose user stays quiet returns

    Once no further message arrives for its user, a call that is resumed with
    whatever the history store and the provider answer, or whichever
    [Exception] they raise, returns after at most five resumptions: at most one
    attempt on a snapshot that went stale, and one on the fresh one. *)

Lemma drive_step n i fetched response s tk ev s1 :
  tasks s !! i = Some tk →
  awaited i (at_ tk) (fetched n) (response n) = Some ev →
  step s ev = Some s1 →
  drive (S n) i fetched response s = drive n i fetched response s1.
Proof. intros Hi Hev Hstep. simpl. rewrite Hi. simpl. by rewrite Hev, Hstep. Qed.











(** ** The entry gate *)

(** C7. Entry-gate deferral. A call that finds its user's lock held appends
    its message at the tail of the buffer and returns nothing; the registry,
    the lock, the other processors and the other calls are as before. The
    holder of the lock is still there, and when it next gets to a restart check
    (its pending completion answered, after its pending history fetch if it is
    still in it) it finds the buffer longer than its snapshot and starts over
    on the whole buffer, the new message last. *)
Theorem entry_gate_deferral s u message p proc :
  reachable s →
  _processors (client s) !! User.id u = Some p →
  objects (client s) !! p = Some proc → lock proc = true →
  let s' := {| client := altered (client s) p (λ x, add_message x message);
               tasks := tasks s ++ [ {| user := u; at_ := Returned None |} ] |} in
  step s (Call u message) = Some s'
  ∧ deref (client s') p
    = {| user_id := user_id proc; lock := true;
         messages := messages proc ++ [message] |}
  ∧ (∀ q, q ≠ p → deref (client s') q = deref (client s) q)
  ∧ ∃ i tk B,
      tasks s !! i = Some tk ∧ tasks s' !! i = Some tk ∧
      active (at_ tk) = Some (p, B) ∧ User.id (user tk) = User.id u ∧
      ∀ history response,
        ∃ s'', run s' (to_checkpoint i (at_ tk) history response) = Some s'' ∧
               at_ <$> tasks s'' !! i
               = Some (AwaitHistory p (messages proc ++ [message])).
Proof.
  intros Hreach Hreg Hobj Hlock s'.
  pose proof (reachable_inv s Hreach) as HI.
  assert (Hstep : step s (Call u message) = Some s').
  { pose proof (step_call_shape s u message HI) as Hshape.
    rewrite Hreg in Hshape. destruct Hshape as (proc' & Hobj' & _ & Heq).
    simplify_eq. by rewrite Hlock in Heq. }
  assert (HI' : Inv s') by (by eapply step_inv).
  assert (Hobj' : objects (client s') !! p = Some (add_message proc message)).
  { simpl. by rewrite list_lookup_alter_eq, Hobj. }
  split_and!.
  - done.
  - rewrite (deref_lookup _ _ _ Hobj'). unfold add_message. by rewrite Hlock.
  - intros q Hq. by apply deref_altered_ne.
  - destruct (inv_holder s HI p proc Hobj Hlock) as (i & tk & B & Hi & Ha).
    destruct (active_facts s i tk p B HI Hi Ha)
      as (proc0 & Hreg0 & Hobj0 & _ & Hpre & Hne & Huid).
    simplify_eq.
    destruct (inv_registry s HI _ _ Hreg) as (proc1 & Hobj1 & Hu1).
    simplify_eq.
    assert (Hi' : tasks s' !! i = Some tk) by (by apply lookup_app_l_Some).
    exists i, tk, B. split_and!; try done; [congruence|].
    intros history response.
    assert (Hstale : (length B < length (messages (add_message proc message)))%nat).
    { simpl. rewrite length_app. simpl. apply prefix_length in Hpre. lia. }
    assert (Hreg' : _processors (client s') !! User.id (user tk) = Some p) by done.
    assert (Hlock' : lock (add_message proc message) = true) by done.
    clearbody s'.
    destruct (at_ tk) as [|p0 B0|p0 B0 api|p0 B0 api initial updated| |] eqn:Hat;
      simpl in Ha; try done; inversion Ha; subst p0 B0;
      unfold to_checkpoint; rewrite !run_cons.
    + rewrite (step_history_eq s' i tk p B _ (Ok history)
                 Hi' Hat Hreg' Hobj' Hlock'). simpl.
      set (s1 := resumed s' i tk _).
      assert (Hi1 : tasks s1 !! i
                    = Some {| user := user tk;
                              at_ := AwaitPhase1 p B
                                       (api_messages
                                          (_format_conversation_history history)
                                          B) |}).
      { by apply resumed_lookup. }
      rewrite (step_phase1_eq s1 i _ p B _ _ (Ok response)
                 Hi1 eq_refl Hreg' Hobj' Hlock'). simpl.
      rewrite bool_decide_eq_true_2 by done.
      eexists. split; [done|].
      simpl. rewrite list_lookup_insert_eq; [done|].
      rewrite length_insert. by eapply lookup_lt_Some.
    + rewrite (step_phase1_eq s' i tk p B api _ (Ok response)
                 Hi' Hat Hreg' Hobj' Hlock'). simpl.
      rewrite bool_decide_eq_true_2 by done.
      eexists. split; [done|].
      simpl. rewrite list_lookup_insert_eq; [done|].
      by eapply lookup_lt_Some.
    + rewrite (step_phase2_eq s' i tk p B api initial updated _ (Ok response)
                 Hi' Hat Hreg' Hobj' Hlock'). simpl.
      rewrite bool_decide_eq_true_2 by done.
      eexists. split; [done|].
      simpl. rewrite list_lookup_insert_eq; [done|].
      by eapply lookup_lt_Some.
Qed.

(** ** Loss-freedom *)

Lemma appended_resume uid ev i : target ev = Some i → appended uid [ev] = [].
Proof. by destruct ev. Qed.

Lemma appended_cons uid ev evs :
  appended uid (ev :: evs) = appended uid [ev] ++ appended uid evs.
Proof. unfold appended. simpl. by rewrite app_nil_r. Qed.

(** A call that has returned stays as it is. *)
Lemma returned_stays s ev s' i tk r :
  step s ev = Some s' → tasks s !! i = Some tk → at_ tk = Returned r →
  tasks s' !! i = Some tk.
Proof.
  intros Hstep Hi Hat. destruct (target ev) as [j|] eqn:Htarget.
  - destruct (step_resume_inv s ev j s' Htarget Hstep) as (tkj & Hj & Hmatch).
    assert (j ≠ i) as Hneq.
    { intros ->. simplify_eq. rewrite Hat in Hmatch. by destruct ev. }
    destruct ev as [|j'|j' ?|j' ?]; simpl in Htarget; simplify_eq;
      unfold step in Hstep; simpl in Hstep; rewrite Hj in Hstep;
      simpl in Hstep;
      (destruct (resume _ _ _) as [m|]; simpl in Hstep; [|done]);
      (destruct (blocked _ _); [done|]);
      (destruct (run_task _ _) as [a c]); simplify_eq; simpl;
      by rewrite list_lookup_insert_ne.
  - destruct ev as [u message| | |]; try done.
    rewrite step_call_eq in Hstep. simplify_eq. simpl.
    by apply lookup_app_l_Some.
Qed.

Lemma returned_stays_run evs : ∀ s s' i tk r,
  run s evs = Some s' → tasks s !! i = Some tk → at_ tk = Returned r →
  tasks s' !! i = Some tk.
Proof.
  induction evs as [|ev evs IH]; intros s s' i tk r Hrun Hi Hat.
  - simpl in Hrun. by simplify_eq.
  - rewrite run_cons in Hrun.
    destruct (step s ev) as [s1|] eqn:Hstep; simpl in Hrun; [|done].
    eapply IH; [done| |done]. by eapply returned_stays.
Qed.

(** A call that is through stays as it is. *)
Lemma ended_stays s ev s' i tk :
  step s ev = Some s' → tasks s !! i = Some tk → ended (at_ tk) →
  tasks s' !! i = Some tk.
Proof.
  intros Hstep Hi Hat. destruct (target ev) as [j|] eqn:Htarget.
  - destruct (step_resume_inv s ev j s' Htarget Hstep) as (tkj & Hj & Hmatch).
    assert (j ≠ i) as Hneq.
    { intros ->. simplify_eq. destruct (at_ tk); try done; by destruct ev. }
    destruct ev as [|j'|j' ?|j' ?]; simpl in Htarget; simplify_eq;
      unfold step in Hstep; simpl in Hstep; rewrite Hj in Hstep;
      simpl in Hstep;
      (destruct (resume _ _ _) as [m|]; simpl in Hstep; [|done]);
      (destruct (blocked _ _); [done|]);
      (destruct (run_task _ _) as [a c]); simplify_eq; simpl;
      by rewrite list_lookup_insert_ne.
  - destruct ev as [u message| | |]; try done.
    rewrite step_call_eq in Hstep. simplify_eq. simpl.
    by apply lookup_app_l_Some.
Qed.

Lemma ended_stays_run evs : ∀ s s' i tk,
  run s evs = Some s' → tasks s !! i = Some tk → ended (at_ tk) →
  tasks s' !! i = Some tk.
Proof.
  induction evs as [|ev evs IH]; intros s s' i tk Hrun Hi Hat.
  - simpl in Hrun. by simplify_eq.
  - rewrite run_cons in Hrun.
    destruct (step s ev) as [s1|] eqn:Hstep; simpl in Hrun; [|done].
    eapply IH; [done| |done]. by eapply ended_stays.
Qed.

(** While the holder of a user's lock has not returned, a step changes that
    user's buffer by appending what the step's call brought, if it was a call
    of that user, and in no other way. *)
Lemma step_buffer s ev s' i tk p B tk' p' B' :
  Inv s → step s ev = Some s' →
  tasks s !! i = Some tk → active (at_ tk) = Some (p, B) →
  tasks s' !! i = Some tk' → active (at_ tk') = Some (p', B') →
  p' = p ∧ user tk' = user tk ∧
  messages (deref (client s') p)
  = messages (deref (client s) p) ++ appended (User.id (user tk)) [ev].
Proof.
  intros HI Hstep Hi Ha Hi' Ha'.
  destruct (active_facts s i tk p B HI Hi Ha)
    as (proc & Hreg & Hobj & Hlock & Hpre & Hne & Huid).
  destruct (target ev) as [j|] eqn:Htarget.
  - rewrite (appended_resume _ _ _ Htarget), app_nil_r.
    destruct (step_resume_shape s ev j s' HI Htarget Hstep)
      as (tkj & q & Bq & procq & Hj & Haj & Hregj & Hobjj
          & [(a' & Bn & -> & Han & _)|(a & F & -> & Hended & _)]).
    + simpl. apply lookup_insert_task in Hi' as [[-> ->]|[Hneq Hi']];
        simpl in *; simplify_eq; done.
    + apply lookup_insert_task in Hi' as [[-> ->]|[Hneq Hi']];
        simpl in *; [by destruct a|].
      rewrite Hi in Hi'. injection Hi' as <-.
      rewrite Ha in Ha'. injection Ha' as <- <-. split_and!; try done.
      assert (q ≠ p) as Hq.
      { intros Heq. subst q. apply Hneq. by eapply (inv_unique s HI i j). }
      by rewrite (deref_altered_ne _ _ _ _ Hq).
  - destruct ev as [u message| | |]; try done.
    pose proof (step_call_shape s u message HI) as Hshape.
    assert (Hold : tasks s' !! i = Some tk → tk' = tk) by congruence.
    destruct (_processors (client s) !! User.id u) as [q|] eqn:Hregu.
    + destruct Hshape as (procq & Hobjq & Huq & Heq).
      rewrite Heq in Hstep. simplify_eq.
      assert (tk' = tk) as ->.
      { apply Hold. destruct (lock procq); simpl; by apply lookup_app_l_Some. }
      rewrite Ha in Ha'. injection Ha' as <- <-. split_and!; try done.
      unfold appended. simpl. rewrite app_nil_r.
      destruct (decide (q = p)) as [Hqp|Hq]; [subst q|].
      * simplify_eq. rewrite decide_True by congruence.
        rewrite (deref_lookup _ _ _ Hobj).
        destruct (lock proc); simpl;
          by rewrite (deref_altered_eq _ _ _ _ Hobj).
      * rewrite decide_False by (intros Heq'; rewrite Heq' in Hregu; congruence).
        rewrite app_nil_r.
        destruct (lock procq); simpl; by rewrite (deref_altered_ne _ _ _ _ Hq).
    + rewrite Hshape in Hstep. simplify_eq.
      assert (tk' = tk) as ->.
      { apply Hold. simpl. by apply lookup_app_l_Some. }
      rewrite Ha in Ha'. injection Ha' as <- <-. split_and!; try done.
      unfold appended. simpl.
      rewrite decide_False by (intros Heq'; rewrite Heq' in Hregu; congruence).
      simpl. rewrite app_nil_r.
      by rewrite (deref_registered_old _ _ _ _ _ Hobj).
Qed.

Lemma task_persists s ev s' i tk :
  step s ev = Some s' → tasks s !! i = Some tk → is_Some (tasks s' !! i).
Proof.
  intros Hstep Hi. apply lookup_lt_is_Some. apply lookup_lt_Some in Hi.
  destruct (target ev) as [j|] eqn:Htarget.
  - destruct (step_resume_inv s ev j s' Htarget Hstep) as (tkj & Hj & _).
    destruct ev as [|j'|j' ?|j' ?]; simpl in Htarget; simplify_eq;
      unfold step in Hstep; simpl in Hstep; rewrite Hj in Hstep;
      simpl in Hstep;
      (destruct (resume _ _ _) as [m|]; simpl in Hstep; [|done]);
      (destruct (blocked _ _); [done|]);
      (destruct (run_task _ _) as [a c]); simplify_eq; simpl;
      by rewrite length_insert.
  - destruct ev as [u message| | |]; try done.
    rewrite step_call_eq in Hstep. simplify_eq. simpl.
    rewrite length_app. lia.
Qed.

Lemma run_buffer evs : ∀ s s' i tk p B tk' p' B',
  Inv s → run s evs = Some s' →
  tasks s !! i = Some tk → active (at_ tk) = Some (p, B) →
  tasks s' !! i = Some tk' → active (at_ tk') = Some (p', B') →
  p' = p ∧ user tk' = user tk ∧
  messages (deref (client s') p)
  = messages (deref (client s) p) ++ appended (User.id (user tk)) evs.
Proof.
  induction evs as [|ev evs IH]; intros s s' i tk p B tk' p' B'
    HI Hrun Hi Ha Hi' Ha'.
  - simpl in Hrun. simplify_eq. by rewrite app_nil_r.
  - rewrite run_cons in Hrun.
    destruct (step s ev) as [s1|] eqn:Hstep; simpl in Hrun; [|done].
    assert (HI1 : Inv s1) by (by eapply step_inv).
    destruct (task_persists s ev s1 i tk Hstep Hi) as [tk1 Hi1].
    assert (∃ p1 B1, active (at_ tk1) = Some (p1, B1)) as (p1 & B1 & Ha1).
    { pose proof (inv_settled s1 HI1 i tk1 Hi1) as Hs.
      destruct (at_ tk1) as [| | | |r|e] eqn:Hat1; try done;
        try (by eexists _, _);
        (assert (Hend : tasks s' !! i = Some tk1)
           by (eapply ended_stays_run; [exact Hrun|exact Hi1|by rewrite Hat1]));
        rewrite Hend in Hi'; injection Hi' as <-; by rewrite Hat1 in Ha'. }
    destruct (step_buffer s ev s1 i tk p B tk1 p1 B1 HI Hstep Hi Ha Hi1 Ha1)
      as (-> & Hu1 & Hm1).
    destruct (IH s1 s' i tk1 p B1 tk' p' B' HI1 Hrun Hi1 Ha1 Hi' Ha')
      as (-> & Hu' & Hm').
    split_and!; [done|congruence|].
    rewrite Hm', Hm1, Hu1, (appended_cons _ ev evs). by rewrite <- app_assoc.
Qed.

Lemma pending_deref s uid p :
  _processors (client s) !! uid = Some p →
  pending s uid = messages (deref (client s) p).
Proof. intros H. unfold pending. by rewrite H. Qed.

(** An outcome is built on the whole buffer. *)
Lemma outcome_is_fresh s i response s' outcome :
  Inv s → step s (Completed i response) = Some s' →
  at_ <$> tasks s' !! i = Some (Returned (Some outcome)) →
  ∃ tk api,
    tasks s !! i = Some tk ∧
    snapshot_of (at_ tk) = Some (pending s (User.id (user tk))) ∧
    prompt_of (at_ tk) = Some api ∧
    last api = Some (user_turn (pending s (User.id (user tk)))).
Proof.
  intros HI Hstep Hout.
  destruct (step_resume_inv s (Completed i response) i s' eq_refl Hstep)
    as (tk & Hi & Hmatch).
  pose proof (inv_prompt s HI i tk Hi) as Hprompt.
  destruct (at_ tk) as [| |p B api|p B api initial updated| |] eqn:Hat;
    try done.
  - destruct (active_facts s i tk p B HI Hi ltac:(by rewrite Hat))
      as (proc & Hreg & Hobj & Hlock & Hpre & Hne & _).
    rewrite (step_phase1_eq s i tk p B api proc response
               Hi Hat Hreg Hobj Hlock) in Hstep. simplify_eq.
    rewrite (resumed_lookup _ _ _ _ Hi) in Hout. simpl in Hout.
    destruct response as [initial|[?|?]]; [|done..].
    case_bool_decide as Hstale; [done|].
    assert (B = messages proc) as ->.
    { apply prefix_length_eq; [done|lia]. }
    exists tk, api. rewrite Hat, (pending_deref _ _ _ Hreg).
    rewrite (deref_lookup _ _ _ Hobj). split_and!; try done.
    destruct Hprompt as [H ->]. apply api_messages_last.
  - destruct (active_facts s i tk p B HI Hi ltac:(by rewrite Hat))
      as (proc & Hreg & Hobj & Hlock & Hpre & Hne & _).
    rewrite (step_phase2_eq s i tk p B api initial updated proc response
               Hi Hat Hreg Hobj Hlock) in Hstep. simplify_eq.
    rewrite (resumed_lookup _ _ _ _ Hi) in Hout. simpl in Hout.
    destruct response as [final|[?|?]]; [|done..].
    case_bool_decide as Hstale; [done|].
    assert (B = messages proc) as ->.
    { apply prefix_length_eq; [done|lia]. }
    exists tk, api. rewrite Hat, (pending_deref _ _ _ Hreg).
    rewrite (deref_lookup _ _ _ Hobj). split_and!; try done.
    destruct Hprompt as [[H ->] _]. apply api_messages_last.
Qed.

(** The restart check: a completion that comes back to a buffer longer than
    the snapshot is dropped, and the call starts over on the whole buffer;
    nothing is cleared and nothing is returned. *)
Lemma restart_check s i tk p B api response :
  Inv s → tasks s !! i = Some tk → active (at_ tk) = Some (p, B) →
  prompt_of (at_ tk) = Some api →
  (length B < length (pending s (User.id (user tk))))%nat →
  step s (Completed i (Ok response))
  = Some (resumed s i tk
            (AwaitHistory p (pending s (User.id (user tk))), client s)).
Proof.
  intros HI Hi Ha Hprompt Hstale.
  destruct (active_facts s i tk p B HI Hi Ha)
    as (proc & Hreg & Hobj & Hlock & Hpre & Hne & _).
  rewrite (pending_deref _ _ _ Hreg), (deref_lookup _ _ _ Hobj) in Hstale |- *.
  destruct (at_ tk) as [| |p0 B0 api0|p0 B0 api0 initial updated| |] eqn:Hat;
    try done; simpl in Ha; injection Ha as -> ->.
  - rewrite (step_phase1_eq s i tk p B api0 proc (Ok response)
               Hi Hat Hreg Hobj Hlock).
    by rewrite bool_decide_eq_true_2.
  - rewrite (step_phase2_eq s i tk p B api0 initial updated proc (Ok response)
               Hi Hat Hreg Hobj Hlock).
    by rewrite bool_decide_eq_true_2.
Qed.

(** C1. Loss-freedom via the restart check. (1) When a call of a user whose
    buffer is empty starts, and that call later returns an outcome, the
    snapshot of its last attempt is its own message followed by every message
    appended for that user since, in arrival order, however often it started
    over; the prompt of that attempt ends with a dictionary of role [user]
    whose content is those messages joined by line feeds (character 10), and
    which has no other key. (2) Whenever a completion comes back to a buffer with
    more entries than the snapshot, the attempt is dropped and the call is
    back at the top of the loop with the whole buffer as its snapshot, the
    client untouched. (3) So every outcome any call returns was built on a
    snapshot equal to the whole buffer at that moment, joined by line feeds in
    the last turn of its prompt. *)
Theorem loss_freedom :
  (∀ s0 u message evs s response s' outcome,
     reachable s0 → pending s0 (User.id u) = [] →
     run s0 (Call u message :: evs) = Some s →
     step s (Completed (length (tasks s0)) response) = Some s' →
     at_ <$> tasks s' !! length (tasks s0) = Some (Returned (Some outcome)) →
     ∃ tk api,
       tasks s !! length (tasks s0) = Some tk ∧ user tk = u ∧
       snapshot_of (at_ tk) = Some (message :: appended (User.id u) evs) ∧
       prompt_of (at_ tk) = Some api ∧
       last api
       = Some {| role := MessageRole.user;
                 content :=
                   Some (VStr (String.concat (String (Ascii.Ascii false true false true false false false false) "")
                                 (message :: appended (User.id u) evs)));
                 tool_calls := None; tool_call_id := None |})
  ∧ (∀ s i tk p B api response,
       reachable s → tasks s !! i = Some tk →
       active (at_ tk) = Some (p, B) → prompt_of (at_ tk) = Some api →
       (length B < length (pending s (User.id (user tk))))%nat →
       step s (Completed i (Ok response))
       = Some (resumed s i tk
                 (AwaitHistory p (pending s (User.id (user tk))), client s)))
  ∧ (∀ s i response s' outcome,
       reachable s → step s (Completed i response) = Some s' →
       at_ <$> tasks s' !! i = Some (Returned (Some outcome)) →
       ∃ tk api,
         tasks s !! i = Some tk ∧
         snapshot_of (at_ tk) = Some (pending s (User.id (user tk))) ∧
         prompt_of (at_ tk) = Some api ∧
         last api
         = Some {| role := MessageRole.user;
                   content :=
                     Some (VStr (String.concat (String (Ascii.Ascii false true false true false false false false) "")
                                   (pending s (User.id (user tk)))));
                   tool_calls := None; tool_call_id := None |}).
Proof.
  split_and!.
  - intros s0 u message evs s response s' outcome Hreach Hempty Hrun Hstep Hout.
    pose proof (reachable_inv s0 Hreach) as HI0.
    rewrite run_cons in Hrun.
    destruct (step s0 (Call u message)) as [s1|] eqn:Hcall; simpl in Hrun;
      [|done].
    assert (HI1 : Inv s1) by (by eapply step_inv).
    assert (HI : Inv s) by (by eapply run_inv).
    destruct (outcome_is_fresh s _ response s' outcome HI Hstep Hout)
      as (tk & api & Hi & Hsnap & Hprompt & Hlast).
    assert (∃ p B, active (at_ tk) = Some (p, B)) as (p & B & Ha).
    { unfold snapshot_of in Hsnap.
      destruct (active (at_ tk)) as [[p B]|]; [by eexists _, _|done]. }
    (* the call as it stands after its first stretch *)
    assert (∃ p1,
      tasks s1 !! length (tasks s0)
      = Some {| user := u; at_ := AwaitHistory p1 [message] |} ∧
      messages (deref (client s1) p1) = [message])
      as (p1 & Hi1 & Hbuf1).
    { pose proof (step_call_shape s0 u message HI0) as Hshape.
      unfold pending in Hempty.
      destruct (_processors (client s0) !! User.id u) as [q|] eqn:Hreg.
      - destruct Hshape as (procq & Hobjq & _ & Heq).
        rewrite Heq in Hcall. injection Hcall as <-.
        rewrite (deref_lookup _ _ _ Hobjq) in Hempty.
        destruct (lock procq) eqn:Hlock.
        + (* deferred: the call has returned and cannot be resumed *)
          exfalso.
          assert (Hret : tasks s !! length (tasks s0)
                         = Some {| user := u; at_ := Returned None |}).
          { eapply returned_stays_run; [exact Hrun| |done].
            simpl. rewrite lookup_app_r by lia. by rewrite Nat.sub_diag. }
          rewrite Hret in Hi. injection Hi as <-. done.
        + exists q. simpl. rewrite Hempty. split.
          * rewrite lookup_app_r by lia. by rewrite Nat.sub_diag.
          * rewrite (deref_altered_eq _ _ _ _ Hobjq). simpl. by rewrite Hempty.
      - rewrite Hshape in Hcall. injection Hcall as <-.
        exists (length (objects (client s0))). simpl. split.
        + rewrite lookup_app_r by lia. by rewrite Nat.sub_diag.
        + by rewrite deref_registered_new. }
    destruct (run_buffer evs s1 s _ _ p1 [message] tk p B HI1 Hrun Hi1 eq_refl
                Hi Ha) as (-> & Hu & Hbuf).
    simpl in Hu. subst u.
    destruct (inv_active s HI _ tk p1 B Hi Ha) as (Hreg & _).
    rewrite (pending_deref _ _ _ Hreg), Hbuf, Hbuf1 in Hsnap, Hlast.
    exists tk, api. by split_and!.
  - intros s i tk p B api response Hreach. apply restart_check.
    by apply reachable_inv.
  - intros s i response s' outcome Hreach. apply outcome_is_fresh.
    by apply reachable_inv.
Qed.

(** ** Eviction and the terminal paths *)

(** [_cleanup_processor] on its own: the entry goes exactly when the buffer is
    empty and the lock is free; the processor objects are never touched. *)
Lemma cleanup_processor_spec self uid :
  (_cleanup_processor uid self).1 = Ok () ∧
  objects (_cleanup_processor uid self).2 = objects self ∧
  _processors (_cleanup_processor uid self).2
  = match _processors self !! uid with
    | Some p =>
        if has_messages (deref self p) || lock (deref self p)
        then _processors self
        else delete uid (_processors self)
    | None => _processors self
    end.
Proof.
  unfold _cleanup_processor, is_locked.
  destruct (_processors self !! uid) as [p|]; [|done].
  by destruct (has_messages _), (lock _).
Qed.

(** Every call of [_cleanup_processor] in [generate_response] comes before the
    lock is released, so no step removes a registry entry. *)
Lemma registry_never_shrinks s ev s' uid p :
  Inv s → step s ev = Some s' →
  _processors (client s) !! uid = Some p →
  _processors (client s') !! uid = Some p.
Proof.
  intros HI Hstep Hreg. destruct (target ev) as [i|] eqn:Htarget.
  - destruct (step_resume_shape s ev i s' HI Htarget Hstep)
      as (tk & q & B & proc & _ & _ & _ & _
          & [(a' & B' & -> & _)|(r & F & -> & _)]); done.
  - destruct ev as [u message| | |]; try done.
    pose proof (step_call_shape s u message HI) as Hshape.
    destruct (_processors (client s) !! User.id u) as [q|] eqn:Hregu.
    + destruct Hshape as (procq & _ & _ & Heq).
      rewrite Heq in Hstep. simplify_eq. by destruct (lock procq).
    + rewrite Hshape in Hstep. simplify_eq. simpl.
      rewrite lookup_insert_ne; [done|]. intros Heq. rewrite Heq in Hregu.
      congruence.
Qed.

(** What a call leaves behind when it returns from the loop: the lock free,
    the processor still registered, and the buffer empty, except after a
    completion that came back as [None], where the buffer is as it was. *)
Lemma return_effects s ev i s' tk r :
  Inv s → target ev = Some i → step s ev = Some s' →
  tasks s !! i = Some tk →
  at_ <$> tasks s' !! i = Some (Returned r) →
  ∃ p,
    _processors (client s') !! User.id (user tk) = Some p ∧
    lock (deref (client s') p) = false ∧
    pending s' (User.id (user tk))
    = match ev with
      | Completed _ (Raise _) => pending s (User.id (user tk))
      | _ => []
      end ∧
    pending s (User.id (user tk)) ≠ [].
Proof.
  intros HI Htarget Hstep Hi Hret.
  destruct (step_resume_inv s ev i s' Htarget Hstep) as (tk0 & Hi0 & Hmatch).
  rewrite Hi in Hi0. injection Hi0 as <-.
  assert (∃ p B, active (at_ tk) = Some (p, B)) as (p & B & Ha).
  { pose proof (inv_settled s HI i tk Hi) as Hs.
    destruct (at_ tk); try done; try (by destruct ev); by eexists _, _. }
  destruct (active_facts s i tk p B HI Hi Ha)
    as (proc & Hreg & Hobj & Hlock & Hpre & Hne & _).
  assert (Hbuf : pending s (User.id (user tk)) ≠ []).
  { rewrite (pending_deref _ _ _ Hreg), (deref_lookup _ _ _ Hobj).
    intros Hnil. rewrite Hnil in Hpre. by apply prefix_nil_inv in Hpre. }
  exists p.
  cut (_processors (client s') !! User.id (user tk) = Some p ∧
       lock (deref (client s') p) = false ∧
       pending s' (User.id (user tk))
       = match ev with
         | Completed _ (Raise _) => pending s (User.id (user tk))
         | _ => []
         end); [intros (? & ? & ?); by split_and!|].
  clear Hbuf.
  assert (Hfin : ∀ F,
    _processors (altered (client s) p F) !! User.id (user tk) = Some p ∧
    deref (altered (client s) p F) p = F proc ∧ deref (client s) p = proc).
  { intros F. split_and!; [done|by apply deref_altered_eq|by apply deref_lookup]. }
  destruct (at_ tk) as [|p0 B0|p0 B0 api|p0 B0 api initial updated| |] eqn:Hat;
    try done; simpl in Ha; injection Ha as -> ->.
  - destruct ev as [| |j fetched|]; try done. simpl in Htarget. simplify_eq.
    rewrite (step_history_eq s i tk p B proc fetched Hi Hat Hreg Hobj Hlock)
      in Hstep. simplify_eq.
    rewrite (resumed_lookup _ _ _ _ Hi) in Hret. simpl in Hret.
    destruct fetched as [history|[what|what]]; [done| |done].
    destruct (Hfin (set_lock false ∘ clear_messages)) as (Hr & Hd & _).
    unfold pending. simpl. by rewrite Hreg, Hd.
  - destruct ev as [| | |j response]; try done. simpl in Htarget. simplify_eq.
    rewrite (step_phase1_eq s i tk p B api proc response Hi Hat Hreg Hobj Hlock)
      in Hstep. simplify_eq.
    rewrite (resumed_lookup _ _ _ _ Hi) in Hret. simpl in Hret.
    destruct response as [initial_response|[what|what]]; [| |done].
    + case_bool_decide; [done|].
      destruct (Hfin (set_lock false ∘ clear_messages)) as (Hr & Hd & _).
      destruct (cc_tool_calls initial_response) as [[|??]|]; try done;
        unfold pending; simpl; by rewrite Hreg, Hd.
    + destruct (Hfin (set_lock false)) as (Hr & Hd & Hd0).
      unfold pending. simpl. by rewrite Hreg, Hd, Hd0.
  - destruct ev as [| | |j response]; try done. simpl in Htarget. simplify_eq.
    rewrite (step_phase2_eq s i tk p B api initial updated proc response
               Hi Hat Hreg Hobj Hlock) in Hstep. simplify_eq.
    rewrite (resumed_lookup _ _ _ _ Hi) in Hret. simpl in Hret.
    destruct response as [final_response|[what|what]]; [| |done].
    + case_bool_decide; [done|].
      destruct (Hfin (set_lock false ∘ clear_messages)) as (Hr & Hd & _).
      unfold pending; simpl; by rewrite Hreg, Hd.
    + destruct (Hfin (set_lock false)) as (Hr & Hd & Hd0).
      unfold pending. simpl. by rewrite Hreg, Hd, Hd0.
Qed.

(** ** The registry on its own (lines 56-66) *)

(** X1. [_get_processor] gets or creates: afterwards the user id is
    registered to the reference returned; a user id already registered keeps
    its reference and the client is untouched; an unseen one gets a new object,
    empty and unlocked, at a reference no object had before. Other user ids
    and the objects that were there are as before, and asking again changes
    nothing. *)
Theorem get_processor_get_or_create self uid :
  ∃ p self',
    _get_processor uid self = (Ok p, self') ∧
    _processors self' !! uid = Some p ∧
    (∀ uid', uid' ≠ uid → _processors self' !! uid' = _processors self !! uid') ∧
    (∀ q proc, objects self !! q = Some proc → objects self' !! q = Some proc) ∧
    _get_processor uid self' = (Ok p, self') ∧
    match _processors self !! uid with
    | Some p0 => p = p0 ∧ self' = self
    | None =>
        p = length (objects self) ∧ objects self !! p = None ∧
        objects self' !! p = Some (MessageProcessor.__init__ uid)
    end.
Proof.
  unfold _get_processor.
  destruct (_processors self !! uid) as [p0|] eqn:Hreg.
  - exists p0, self. rewrite Hreg. by split_and!.
  - eexists _, _. split; [done|]. simpl. rewrite lookup_insert_eq.
    split_and!; try done.
    + intros uid' Hne. by rewrite lookup_insert_ne.
    + intros q proc Hq. by apply lookup_app_l_Some.
    + by apply lookup_ge_None_2.
    + rewrite lookup_app_r by lia. by rewrite Nat.sub_diag.
Qed.

(** X2. [_cleanup_processor] never raises and never touches a processor
    object or another user's entry. The user's entry is gone afterwards
    exactly when there was none, or its buffer was empty and its lock free;
    when the entry stays the client is unchanged, and cleaning up twice is
    cleaning up once. *)
Theorem cleanup_processor_evicts_iff self uid :
  ∃ self',
    _cleanup_processor uid self = (Ok (), self') ∧
    objects self' = objects self ∧
    (∀ uid', uid' ≠ uid → _processors self' !! uid' = _processors self !! uid') ∧
    (_processors self' !! uid = None ↔
     _processors self !! uid = None ∨
     ∃ p, _processors self !! uid = Some p ∧
          messages (deref self p) = [] ∧ lock (deref self p) = false) ∧
    (is_Some (_processors self' !! uid) → self' = self) ∧
    _cleanup_processor uid self' = (Ok (), self').
Proof.
  unfold _cleanup_processor, has_messages, is_locked.
  destruct (_processors self !! uid) as [p|] eqn:Hreg.
  - destruct (messages (deref self p)) as [|m ms] eqn:Hm;
      destruct (lock (deref self p)) eqn:Hl; simpl.
    + exists self. rewrite Hreg, Hm, Hl. simpl. split_and!; try done.
      split; [done|]. intros [?|(p0 & ? & ? & ?)]; simplify_eq; congruence.
    + eexists. split; [done|]. simpl. rewrite lookup_delete_eq.
      split_and!; try done.
      * intros uid' Hne. by rewrite lookup_delete_ne.
      * split; [|done]. intros _. right. by exists p.
    + exists self. rewrite Hreg, Hm, Hl. simpl. split_and!; try done.
      split; [done|]. intros [?|(p0 & ? & ? & ?)]; simplify_eq; congruence.
    + exists self. rewrite Hreg, Hm, Hl. simpl. split_and!; try done.
      split; [done|]. intros [?|(p0 & ? & ? & ?)]; simplify_eq; congruence.
  - exists self. rewrite Hreg. split_and!; try done. split; [by left|done].
Qed.

(** X3. After an eviction the next [_get_processor] for the same user id
    does not bring the old processor back: it registers a new object at a new
    reference, empty and unlocked, and the old object stays where it was,
    unchanged and no longer reachable through the registry. *)
Theorem evicted_processor_is_not_reused self uid p proc :
  _processors self !! uid = Some p → objects self !! p = Some proc →
  messages proc = [] → lock proc = false →
  ∃ self1 self2 p',
    _cleanup_processor uid self = (Ok (), self1) ∧
    _processors self1 !! uid = None ∧
    _get_processor uid self1 = (Ok p', self2) ∧
    p' ≠ p ∧ _processors self2 !! uid = Some p' ∧
    objects self2 !! p = Some proc ∧
    objects self2 !! p' = Some (MessageProcessor.__init__ uid).
Proof.
  intros Hreg Hobj Hm Hl.
  unfold _cleanup_processor, _get_processor, has_messages, is_locked.
  rewrite Hreg, (deref_lookup _ _ _ Hobj), Hm, Hl. simpl.
  eexists _, _, _. split; [done|]. simpl. rewrite lookup_delete_eq.
  split; [done|]. split; [done|]. simpl. rewrite lookup_insert_eq.
  apply lookup_lt_Some in Hobj as Hlt. split_and!; try done.
  - lia.
  - by apply lookup_app_l_Some.
  - rewrite lookup_app_r by lia. by rewrite Nat.sub_diag.
Qed.

(** ** The buffer on its own (lines 19-42, 68-72) *)

Lemma add_messages_spec proc (ms : list string) :
  messages (foldl add_message proc ms) = messages proc ++ ms ∧
  user_id (foldl add_message proc ms) = user_id proc ∧
  lock (foldl add_message proc ms) = lock proc.
Proof.
  revert proc. induction ms as [|m ms IH]; intros proc; simpl.
  - by rewrite app_nil_r.
  - destruct (IH (add_message proc m)) as (-> & -> & ->). simpl.
    by rewrite <- app_assoc.
Qed.

(** X4. The buffer is first in, first out: messages added one after the
    other are read back after the ones that were there, in the order they were
    added; adding touches neither the lock nor the user id; [has_messages]
    says whether anything is buffered; clearing empties the buffer whatever it
    held and leaves the lock as it is. *)
Theorem buffer_keeps_arrival_order proc (ms : list string) :
  get_pending_messages (foldl add_message proc ms)
  = get_pending_messages proc ++ ms
  ∧ user_id (foldl add_message proc ms) = user_id proc
  ∧ lock (foldl add_message proc ms) = lock proc
  ∧ (has_messages (foldl add_message proc ms) = true ↔
     get_pending_messages proc ++ ms ≠ [])
  ∧ get_pending_messages (clear_messages (foldl add_message proc ms)) = []
  ∧ has_messages (clear_messages (foldl add_message proc ms)) = false
  ∧ lock (clear_messages (foldl add_message proc ms)) = lock proc.
Proof.
  destruct (add_messages_spec proc ms) as (Hm & Hu & Hl).
  unfold get_pending_messages, has_messages. rewrite Hm.
  split_and!; try done.
  by destruct (messages proc ++ ms).
Qed.

(** X5. [_check_new_messages] compares lengths, and changes nothing: against
    the length of a snapshot it says no while the buffer is as the snapshot
    left it, and yes as soon as at least one message has been added since,
    however many. *)
Theorem check_new_messages_sees_appends self p proc (ms : list string) n :
  objects self !! p = Some proc →
  let self' := altered self p (λ x, foldl add_message x ms) in
  _check_new_messages p n self'
  = (Ok (bool_decide (n < length (messages proc) + length ms)%nat), self')
  ∧ _check_new_messages p (length (messages proc)) self = (Ok false, self)
  ∧ _check_new_messages p (length (messages proc)) self'
    = (Ok (bool_decide (ms ≠ [])), self').
Proof.
  intros Hobj self'.
  assert (Hd : messages (deref self' p) = messages proc ++ ms).
  { unfold self'. rewrite (deref_altered_eq _ _ _ _ Hobj).
    by destruct (add_messages_spec proc ms) as (-> & _). }
  unfold _check_new_messages, read. rewrite Hd, (deref_lookup _ _ _ Hobj).
  rewrite length_app. split_and!.
  - done.
  - by rewrite bool_decide_eq_false_2 by lia.
  - f_equal. f_equal. apply bool_decide_ext.
    destruct ms; simpl; [split; [lia|done]|split; [done|lia]].
Qed.

(** ** History formatting and the prompt (lines 168-171, 260-277) *)

(** X6. The formatted history always starts with the system turn and then
    has the stored turns one for one, in order, each with its role and content
    and no other key; no history and an empty history format alike, to the
    system turn alone. *)
Theorem format_conversation_history_shape (history : option (list Message)) :
  head (_format_conversation_history history)
  = Some {| role := MessageRole.system;
            content := Some (VStr (get_system_prompt "default_system"));
            tool_calls := None; tool_call_id := None |}
  ∧ length (_format_conversation_history history)
    = S (length (default [] history))
  ∧ (∀ i msg,
       default [] history !! i = Some msg →
       _format_conversation_history history !! S i
       = Some {| role := msg_role msg; content := Some (msg_content msg);
                 tool_calls := None; tool_call_id := None |})
  ∧ _format_conversation_history None = _format_conversation_history (Some [])
  ∧ Forall (λ turn, is_Some (content turn) ∧ tool_calls turn = None ∧
                    tool_call_id turn = None)
      (_format_conversation_history history).
Proof.
  rewrite format_conversation_history_eq. split_and!; try done.
  - simpl. by rewrite length_fmap.
  - intros i msg Hi. simpl. by rewrite list_lookup_fmap, Hi.
  - constructor; [by split_and!|].
    apply Forall_fmap, Forall_forall. intros msg _. simpl. by split_and!.
Qed.

(** X7. The prompt in all cases. For a snapshot of at least one and at most
    as many messages as the stored history has turns, it is the system turn,
    the history without its last |B| turns, and the user turn of the snapshot.
    In every other case, a snapshot longer than the history or an empty one,
    nothing of the formatted history is left and the prompt is the user turn
    alone. The user turn is always the last turn. *)
Theorem api_messages_cases (history : option (list Message)) (B : list string) :
  api_messages (_format_conversation_history history) B
  = (if bool_decide (1 ≤ length B ≤ length (default [] history))%nat
     then _format_conversation_history
            (Some (take (length (default [] history) - length B)
                     (default [] history)))
     else [])
    ++ [user_turn B]
  ∧ last (api_messages (_format_conversation_history history) B)
    = Some (user_turn B)
  ∧ length (api_messages (_format_conversation_history history) B)
    = (if bool_decide (1 ≤ length B ≤ length (default [] history))%nat
       then 2 + (length (default [] history) - length B)
       else 1)%nat.
Proof.
  assert (Heq : api_messages (_format_conversation_history history) B
    = (if bool_decide (1 ≤ length B ≤ length (default [] history))%nat
       then _format_conversation_history
              (Some (take (length (default [] history) - length B)
                       (default [] history)))
       else [])
      ++ [user_turn B]).
  { case_bool_decide as Hlen.
    - destruct history as [history|]; simpl in *; [|lia].
      apply api_messages_long_history; [|lia]. destruct B; simpl in *; [lia|done].
    - destruct (decide (B = [])) as [->|Hne].
      + done.
      + apply api_messages_short_history.
        destruct B; [done|]. simpl in *. lia. }
  split_and!; [done|apply api_messages_last|].
  rewrite Heq, length_app. case_bool_decide; [|done].
  rewrite format_conversation_history_eq. simpl.
  rewrite length_fmap, length_take. lia.
Qed.

Lemma string_app_assoc (a b c : string) : (a +:+ b) +:+ c = a +:+ (b +:+ c).
Proof.
  induction a as [|x a IH]; [done|].
  change (String x ((a +:+ b) +:+ c) = String x (a +:+ (b +:+ c))).
  by rewrite IH.
Qed.

(** X8. The content of the user turn: one message is sent as it is, and a
    snapshot that extends another, as after a restart, has the content of the
    shorter one, a line feed, and the joined rest. *)
Theorem user_turn_content_extends (B B' : list string) :
  B ≠ [] → B' ≠ [] →
  content (user_turn (B ++ B'))
  = Some (VStr (String.concat newline B +:+ newline
                +:+ String.concat newline B'))
  ∧ (∀ message, content (user_turn [message]) = Some (VStr message)).
Proof.
  intros HB HB'. split; [|done]. unfold user_turn. simpl. f_equal. f_equal.
  induction B as [|b B IH]; [done|]. destruct B as [|b' B].
  - simpl. by destruct B'.
  - change (String.concat newline ((b :: b' :: B) ++ B'))
      with (b +:+ newline +:+ String.concat newline ((b' :: B) ++ B')).
    rewrite IH by done.
    change (String.concat newline (b :: b' :: B))
      with (b +:+ newline +:+ String.concat newline (b' :: B)).
    by rewrite !string_app_assoc.
Qed.

(** ** More on tool-call staging (lines 91-131, 217-238) *)

Lemma tool_call_turns_length tool_call :
  (length (tool_call_turns tool_call) ≤ 1)%nat.
Proof.
  destruct (tool_call_turns_cases tool_call) as [->|[str ->]]; simpl; lia.
Qed.

Lemma tool_turns_length tool_calls :
  (length (tool_calls ≫= tool_call_turns) ≤ length tool_calls)%nat.
Proof.
  induction tool_calls as [|tc tcs IH]; [simpl; lia|].
  rewrite bind_cons, length_app. cbn [length].
  pose proof (tool_call_turns_length tc). lia.
Qed.

(** X9. What [_process_tool_calls] returns, by position: the given messages,
    then the echo turn right after them, then at most one tool turn per
    request. The call ids of the tool turns are those of the requests, in the
    order of the requests, with the requests that produced nothing left out.
    With no request at all the echo of an empty list is still appended. *)
Theorem process_tool_calls_positions messages tool_calls :
  take (length messages) (_process_tool_calls messages tool_calls) = messages
  ∧ _process_tool_calls messages tool_calls !! length messages
    = Some (echo_turn tool_calls)
  ∧ (length messages + 1 ≤ length (_process_tool_calls messages tool_calls)
     ≤ length messages + 1 + length tool_calls)%nat
  ∧ tool_call_id <$> drop (S (length messages))
                       (_process_tool_calls messages tool_calls)
    `sublist_of` (λ tool_call, Some (VStr (id tool_call))) <$> tool_calls
  ∧ _process_tool_calls messages [] = messages ++ [echo_turn []].
Proof.
  rewrite process_tool_calls_eq. split_and!.
  - by rewrite take_app_length.
  - rewrite lookup_app_r by lia. by rewrite Nat.sub_diag.
  - rewrite length_app. simpl. lia.
  - rewrite length_app. simpl. pose proof (tool_turns_length tool_calls). lia.
  - rewrite drop_app_ge by lia.
    replace (S (length messages) - length messages)%nat with 1%nat by lia.
    simpl. rewrite drop_0.
    induction tool_calls as [|tc tcs IH]; [constructor|].
    rewrite bind_cons, fmap_app, fmap_cons.
    destruct (tool_call_turns_cases tc) as [->|[str ->]]; simpl.
    + by apply sublist_cons.
    + by apply sublist_skip.
  - done.
Qed.

(** X10. When every request of the first answer has produced its tool turn
    and nothing arrived meanwhile, the call returns, on the second answer, the
    echo turn with the raw requests as its content, one turn per request with
    the tool's role and result, in the order of the requests, and the final
    assistant turn. *)
Theorem outcome_after_resolved_tools s i tk p B api initial updated
    tool_calls final :
  reachable s → tasks s !! i = Some tk →
  at_ tk = AwaitPhase2 p B api initial updated →
  cc_tool_calls initial = Some tool_calls →
  length (tool_calls ≫= tool_call_turns) = length tool_calls →
  pending s (User.id (user tk)) = B →
  ∃ s',
    step s (Completed i (Ok final)) = Some s' ∧
    at_ <$> tasks s' !! i
    = Some (Returned (Some
        (assistant_turn (VStr (json_dumps_calls (serializable <$> tool_calls)))
         :: ((λ turn, {| role := role turn;
                         content := Some (get (content turn));
                         tool_calls := None; tool_call_id := None |})
               <$> (tool_calls ≫= tool_call_turns))
         ++ [assistant_turn (cc_content final)]))).
Proof.
  intros Hreach Hi Hat Hcalls Hall Hquiet.
  pose proof (reachable_inv s Hreach) as HI.
  destruct (active_facts s i tk p B HI Hi ltac:(by rewrite Hat))
    as (proc & Hreg & Hobj & Hlock & _).
  rewrite (pending_deref _ _ _ Hreg), (deref_lookup _ _ _ Hobj) in Hquiet.
  pose proof (inv_prompt s HI i tk Hi) as Hprompt. rewrite Hat in Hprompt.
  destruct Hprompt as (_ & tc & tcs & Htc & Hupdated).
  rewrite Hcalls in Htc. injection Htc as ->.
  eexists. split.
  - apply (step_phase2_eq s i tk p B api initial updated proc (Ok final)
             Hi Hat Hreg Hobj Hlock).
  - rewrite (resumed_lookup _ _ _ _ Hi). simpl.
    rewrite bool_decide_eq_false_2 by (rewrite Hquiet; lia).
    rewrite Hcalls, Hupdated. simpl default.
    by rewrite outcome_when_all_resolve.
Qed.

(** X11. The slice the outcome is cut from (lines 229-231), whatever
    resolved: the echo turn and the tool turns, preceded by one turn from the
    end of the prompt for every request that produced no tool turn, as far as
    the prompt reaches. *)
Theorem outcome_slice_reaches_into_prompt api tool_calls :
  slice_from (_process_tool_calls api tool_calls)
    (- (Z.of_nat (length tool_calls) + 1))
  = drop (length api
          - (length tool_calls - length (tool_calls ≫= tool_call_turns))) api
    ++ echo_turn tool_calls :: (tool_calls ≫= tool_call_turns)
  ∧ length (slice_from (_process_tool_calls api tool_calls)
              (- (Z.of_nat (length tool_calls) + 1)))
    = (length api
       `min` (length tool_calls - length (tool_calls ≫= tool_call_turns))
       + 1 + length (tool_calls ≫= tool_call_turns))%nat.
Proof.
  pose proof (tool_turns_length tool_calls) as Hle.
  assert (Heq : slice_from (_process_tool_calls api tool_calls)
                  (- (Z.of_nat (length tool_calls) + 1))
    = drop (length api
            - (length tool_calls - length (tool_calls ≫= tool_call_turns))) api
      ++ echo_turn tool_calls :: (tool_calls ≫= tool_call_turns)).
  { rewrite process_tool_calls_eq. unfold slice_from.
    assert ((- (Z.of_nat (length tool_calls) + 1) <? 0) = true) as ->
      by (apply Z.ltb_lt; lia).
    rewrite length_app. cbn [length].
    replace (Z.to_nat _)
      with (length api
            - (length tool_calls
               - length (tool_calls ≫= tool_call_turns)))%nat by lia.
    rewrite drop_app_le by lia. done. }
  split; [done|]. rewrite Heq, length_app, length_drop. cbn [length]. lia.
Qed.

(** X12. The second completion is asked without tools, and tool calls in
    its answer are never looked at: two answers with the same content take the
    call, and the whole state, to the same place. *)
Theorem phase2_tool_calls_are_ignored s i tk p B api initial updated
    final final' :
  tasks s !! i = Some tk →
  at_ tk = AwaitPhase2 p B api initial updated →
  cc_content final = cc_content final' →
  step s (Completed i (Ok final)) = step s (Completed i (Ok final')).
Proof.
  intros Hi Hat Hcontent. unfold step. simpl. rewrite Hi. simpl.
  rewrite Hat. simpl.
  replace (after_phase2 (user tk) p B initial updated (Ok final))
    with (after_phase2 (user tk) p B initial updated (Ok final')); [done|].
  unfold after_phase2, _generate_completion, try_except, lift,
    mbind, M_bind, fmap, M_fmap.
  simpl. by rewrite Hcontent.
Qed.

(** ** More on the generation loop (lines 133-258) *)

(** X13. A restart never goes round in circles: the snapshot of the new
    attempt is the whole buffer, it extends the snapshot of the attempt it
    replaces and is strictly longer, and the restart itself changes nothing in
    the client. *)
Theorem restart_extends_snapshot s i tk p B response s' p' B' :
  reachable s → tasks s !! i = Some tk → active (at_ tk) = Some (p, B) →
  step s (Completed i response) = Some s' →
  at_ <$> tasks s' !! i = Some (AwaitHistory p' B') →
  p' = p ∧ B `prefix_of` B' ∧ (length B < length B')%nat ∧
  B' = pending s (User.id (user tk)) ∧ client s' = client s.
Proof.
  intros Hreach Hi Ha Hstep Hnext.
  pose proof (reachable_inv s Hreach) as HI.
  destruct (active_facts s i tk p B HI Hi Ha)
    as (proc & Hreg & Hobj & Hlock & Hpre & Hne & _).
  rewrite (pending_deref _ _ _ Hreg), (deref_lookup _ _ _ Hobj).
  destruct (step_resume_inv s (Completed i response) i s' eq_refl Hstep)
    as (tk0 & Hi0 & Hmatch).
  rewrite Hi in Hi0. injection Hi0 as <-.
  destruct (at_ tk) as [| |p0 B0 api|p0 B0 api initial updated| |] eqn:Hat;
    try done; simpl in Ha; injection Ha as -> ->.
  - rewrite (step_phase1_eq s i tk p B api proc response Hi Hat Hreg Hobj Hlock)
      in Hstep. injection Hstep as <-.
    rewrite (resumed_lookup _ _ _ _ Hi) in Hnext. simpl in Hnext.
    destruct response as [initial_response|[?|?]]; [|done..].
    case_bool_decide as Hstale.
    + simpl in Hnext. injection Hnext as <- <-. by split_and!.
    + by destruct (cc_tool_calls initial_response) as [[|??]|].
  - rewrite (step_phase2_eq s i tk p B api initial updated proc response
               Hi Hat Hreg Hobj Hlock) in Hstep. injection Hstep as <-.
    rewrite (resumed_lookup _ _ _ _ Hi) in Hnext. simpl in Hnext.
    destruct response as [final_response|[?|?]]; [|done..].
    case_bool_decide as Hstale; [|done].
    simpl in Hnext. injection Hnext as <- <-. by split_and!.
Qed.

(** X14. Nothing is ever evicted: a user id registered in a reachable state
    is registered to the same processor after any schedule, and the object
    behind it is still that user's. *)
Theorem registry_only_grows s evs s' uid p :
  reachable s → run s evs = Some s' →
  _processors (client s) !! uid = Some p →
  _processors (client s') !! uid = Some p ∧
  ∃ proc', objects (client s') !! p = Some proc' ∧ user_id proc' = uid.
Proof.
  intros Hreach Hrun Hreg. pose proof (reachable_inv s Hreach) as HI.
  assert (Hkept : _processors (client s') !! uid = Some p).
  { clear Hreach. revert s HI Hrun Hreg.
    induction evs as [|ev evs IH]; intros s HI Hrun Hreg.
    - simpl in Hrun. by simplify_eq.
    - rewrite run_cons in Hrun.
      destruct (step s ev) as [s1|] eqn:Hstep; simpl in Hrun; [|done].
      apply (IH s1); [by eapply step_inv|done|].
      by eapply registry_never_shrinks. }
  split; [done|].
  by apply (inv_registry s' (run_inv evs s s' HI Hrun)).
Qed.

(** X15. Whenever a call returns from the loop, its user's lock is free and
    its processor still registered. The buffer, which was not empty, is empty
    then, except after a completion that failed: that return leaves the buffer
    as it was. *)
Theorem every_return_frees_the_lock s ev i s' tk r :
  reachable s → target ev = Some i → step s ev = Some s' →
  tasks s !! i = Some tk →
  at_ <$> tasks s' !! i = Some (Returned r) →
  ∃ p,
    _processors (client s') !! User.id (user tk) = Some p ∧
    lock (deref (client s') p) = false ∧
    pending s' (User.id (user tk))
    = match ev with
      | Completed _ (Raise _) => pending s (User.id (user tk))
      | _ => []
      end ∧
    pending s (User.id (user tk)) ≠ [].
Proof.
  intros Hreach. apply return_effects. by apply reachable_inv.
Qed.

(** X16. A call that finds its user's lock free, or its user unknown, is
    never deferred: it takes the lock and starts an attempt whose snapshot is
    everything the buffer held, messages left behind by a failed completion
    included, followed by its own message. *)
Theorem free_lock_starts_generation s u message :
  reachable s →
  (∀ p, _processors (client s) !! User.id u = Some p →
        lock (deref (client s) p) = false) →
  ∃ s' p,
    step s (Call u message) = Some s' ∧
    tasks s'
    = tasks s
      ++ [ {| user := u;
              at_ := AwaitHistory p (pending s (User.id u) ++ [message]) |} ] ∧
    _processors (client s') !! User.id u = Some p ∧
    lock (deref (client s') p) = true ∧
    pending s' (User.id u) = pending s (User.id u) ++ [message].
Proof.
  intros Hreach Hfree. pose proof (reachable_inv s Hreach) as HI.
  pose proof (step_call_shape s u message HI) as Hshape.
  unfold pending.
  destruct (_processors (client s) !! User.id u) as [p|] eqn:Hreg.
  - destruct Hshape as (proc & Hobj & _ & Heq).
    pose proof (Hfree p eq_refl) as Hl.
    rewrite (deref_lookup _ _ _ Hobj) in Hl |- *. rewrite Hl in Heq.
    eexists _, p. split; [exact Heq|]. simpl. rewrite Hreg.
    rewrite (deref_altered_eq _ _ _ _ Hobj). by split_and!.
  - eexists _, _. split; [exact Hshape|]. simpl. rewrite lookup_insert_eq.
    rewrite deref_registered_new. by split_and!.
Qed.

(** X17. While a call holds its user's lock the buffer only grows: over any
    schedule that starts and ends with the call not yet returned, the buffer at
    the end is the buffer at the start followed by the messages the schedule's
    calls brought for that user, and the call's snapshot is a beginning of it. *)
Theorem buffer_only_grows_under_holder s evs s' i tk p B tk' p' B' :
  reachable s → run s evs = Some s' →
  tasks s !! i = Some tk → active (at_ tk) = Some (p, B) →
  tasks s' !! i = Some tk' → active (at_ tk') = Some (p', B') →
  p' = p ∧ user tk' = user tk ∧
  pending s' (User.id (user tk))
  = pending s (User.id (user tk)) ++ appended (User.id (user tk)) evs ∧
  B' `prefix_of` pending s' (User.id (user tk)).
Proof.
  intros Hreach Hrun Hi Ha Hi' Ha'.
  pose proof (reachable_inv s Hreach) as HI.
  pose proof (run_inv evs s s' HI Hrun) as HI'.
  destruct (run_buffer evs s s' i tk p B tk' p' B' HI Hrun Hi Ha Hi' Ha')
    as (-> & Hu & Hbuf).
  destruct (inv_active s HI i tk p B Hi Ha) as (Hreg & _).
  destruct (inv_active s' HI' i tk' p B' Hi' Ha') as (Hreg' & _ & Hpre & _).
  rewrite Hu in Hreg'.
  rewrite (pending_deref _ _ _ Hreg), (pending_deref _ _ _ Hreg').
  by split_and!.
Qed.

Lemma echoed_keys tail :
  Forall (λ turn, is_Some (content turn) ∧ tool_calls turn = None ∧
                  tool_call_id turn = None) (echoed tail).
Proof.
  apply Forall_lookup_2. intros i turn Hi. unfold echoed in Hi.
  rewrite list_lookup_imap in Hi.
  destruct (tail !! i) as [msg|]; simplify_eq/=. by split_and!.
Qed.

(** X18. Every outcome a call returns is made of turns that carry a role and
    a content and nothing else, call ids included, and ends with the assistant
    turn of the completion that was just answered; an outcome after the first
    completion is that one turn, and is returned only when the answer asked
    for no tool. A completion that failed never yields an outcome. *)
Theorem outcome_turns_have_role_and_content s i response s' outcome :
  reachable s → step s (Completed i response) = Some s' →
  at_ <$> tasks s' !! i = Some (Returned (Some outcome)) →
  ∃ final,
    response = Ok final ∧
    last outcome = Some (assistant_turn (cc_content final)) ∧
    Forall (λ turn, is_Some (content turn) ∧ tool_calls turn = None ∧
                    tool_call_id turn = None) outcome ∧
    (∀ tk p B api,
       tasks s !! i = Some tk → at_ tk = AwaitPhase1 p B api →
       outcome = [assistant_turn (cc_content final)] ∧
       default [] (cc_tool_calls final) = []).
Proof.
  intros Hreach Hstep Hout. pose proof (reachable_inv s Hreach) as HI.
  destruct (step_resume_inv s (Completed i response) i s' eq_refl Hstep)
    as (tk & Hi & Hmatch).
  destruct (at_ tk) as [| |p B api|p B api initial updated| |] eqn:Hat;
    try done.
  - destruct (active_facts s i tk p B HI Hi ltac:(by rewrite Hat))
      as (proc & Hreg & Hobj & Hlock & _).
    rewrite (step_phase1_eq s i tk p B api proc response
               Hi Hat Hreg Hobj Hlock) in Hstep. injection Hstep as <-.
    rewrite (resumed_lookup _ _ _ _ Hi) in Hout. simpl in Hout.
    destruct response as [final|[?|?]]; [|done..]. exists final.
    case_bool_decide; [done|].
    destruct (cc_tool_calls final) as [[|??]|] eqn:Htc; try done;
      simpl in Hout; injection Hout as <-;
      (split_and!; [done|done|by repeat constructor|]);
      intros tk0 p0 B0 api0 _ _; by rewrite ?Htc.
  - destruct (active_facts s i tk p B HI Hi ltac:(by rewrite Hat))
      as (proc & Hreg & Hobj & Hlock & _).
    rewrite (step_phase2_eq s i tk p B api initial updated proc response
               Hi Hat Hreg Hobj Hlock) in Hstep. injection Hstep as <-.
    rewrite (resumed_lookup _ _ _ _ Hi) in Hout. simpl in Hout.
    destruct response as [final|[?|?]]; [|done..]. exists final.
    case_bool_decide; [done|]. simpl in Hout. injection Hout as <-.
    split_and!; [done|apply last_snoc| |].
    + apply Forall_app. split; [apply echoed_keys|by repeat constructor].
    + intros tk0 p0 B0 api0 Hi0 Hat0. rewrite Hi in Hi0. injection Hi0 as <-.
      by rewrite Hat in Hat0.
Qed.

(** X19. Users do not get in each other's way: a step for one user, a new
    call or a resumption, leaves every other user's registry entry, processor
    and buffer exactly as they were. *)
Theorem step_leaves_other_users s ev s' uid :
  reachable s → step s ev = Some s' → user_of s ev ≠ Some uid →
  _processors (client s') !! uid = _processors (client s) !! uid ∧
  pending s' uid = pending s uid ∧
  (∀ p, _processors (client s) !! uid = Some p →
        deref (client s') p = deref (client s) p).
Proof.
  intros Hreach Hstep Hother. pose proof (reachable_inv s Hreach) as HI.
  cut (_processors (client s') !! uid = _processors (client s) !! uid ∧
       (∀ p, _processors (client s) !! uid = Some p →
             deref (client s') p = deref (client s) p)).
  { intros [Hreg Hd]. split_and!; try done. unfold pending. rewrite Hreg.
    destruct (_processors (client s) !! uid) as [p|] eqn:Hp; [|done].
    by rewrite (Hd p). }
  destruct (target ev) as [j|] eqn:Htarget.
  - destruct (step_resume_shape s ev j s' HI Htarget Hstep)
      as (tk & q & B & proc & Hj & Haj & Hregj & Hobjj
          & [(a' & B' & -> & _)|(r & F & -> & _)]); [done|].
    split; [done|]. intros p Hp. simpl.
    apply deref_altered_ne. intros ->.
    destruct (inv_registry s HI _ _ Hp) as (proc1 & Hobj1 & Hu1).
    destruct (inv_registry s HI _ _ Hregj) as (proc2 & Hobj2 & Hu2).
    assert (Huid : uid = User.id (user tk)) by congruence.
    apply Hother.
    destruct ev as [|t|t ?|t ?]; simpl in Htarget |- *; try done;
      injection Htarget as ->; by rewrite Hj, Huid.
  - destruct ev as [u message| | |]; try done. simpl in Hother.
    assert (Hne : User.id u ≠ uid) by congruence.
    pose proof (step_call_shape s u message HI) as Hshape.
    destruct (_processors (client s) !! User.id u) as [q|] eqn:Hregu.
    + destruct Hshape as (procq & Hobjq & Huq & Heq).
      rewrite Heq in Hstep. injection Hstep as <-.
      assert (Hq : ∀ p, _processors (client s) !! uid = Some p → q ≠ p).
      { intros p Hp ->.
        destruct (inv_registry s HI _ _ Hp) as (proc1 & Hobj1 & Hu1).
        simplify_eq. }
      destruct (lock procq); simpl; (split; [done|]); intros p Hp;
        by apply deref_altered_ne, Hq.
    + rewrite Hshape in Hstep. injection Hstep as <-. simpl.
      split; [by rewrite lookup_insert_ne|]. intros p Hp.
      destruct (inv_registry s HI _ _ Hp) as (proc1 & Hobj1 & _).
      by eapply deref_registered_old.
Qed.

(** X20. What a suspended call holds: its snapshot is never empty and is a
    beginning of its user's buffer, whose lock is held; the prompt out with
    the provider ends with the user turn of that snapshot, and in phase 2 the
    provider was sent that prompt, the echo of the requests, which are at
    least one, and their tool turns. *)
Theorem snapshot_is_prefix_of_buffer s i tk p B :
  reachable s → tasks s !! i = Some tk → active (at_ tk) = Some (p, B) →
  B ≠ [] ∧ B `prefix_of` pending s (User.id (user tk)) ∧
  lock (deref (client s) p) = true ∧
  match at_ tk with
  | AwaitPhase1 _ _ api => last api = Some (user_turn B)
  | AwaitPhase2 _ _ api initial updated =>
      last api = Some (user_turn B) ∧
      ∃ tool_calls,
        cc_tool_calls initial = Some tool_calls ∧ tool_calls ≠ [] ∧
        updated
        = api ++ echo_turn tool_calls :: (tool_calls ≫= tool_call_turns)
  | _ => True
  end.
Proof.
  intros Hreach Hi Ha. pose proof (reachable_inv s Hreach) as HI.
  destruct (inv_active s HI i tk p B Hi Ha) as (Hreg & Hlock & Hpre & Hne).
  rewrite (pending_deref _ _ _ Hreg). split_and!; try done.
  pose proof (inv_prompt s HI i tk Hi) as Hprompt.
  destruct (at_ tk) as [| |p0 B0 api|p0 B0 api initial updated| |]; try done;
    simpl in Ha; injection Ha as -> ->.
  - destruct Hprompt as [H ->]. apply api_messages_last.
  - destruct Hprompt as ([H ->] & tc & tcs & Htc & ->). split.
    + apply api_messages_last.
    + exists (tc :: tcs). split_and!; try done. apply process_tool_calls_eq.
Qed.

(** *** With a history store and a provider that answer, a call is answered *)

Lemma answers_now n s i tk outcome :
  tasks s !! i = Some tk → at_ tk = Returned (Some outcome) →
  answers_within n s i.
Proof.
  intros Hi Hat fetched response _ _. exists s, outcome. split.
  - destruct n; [done|]. simpl. rewrite Hi. simpl. by rewrite Hat.
  - by rewrite Hi, <- Hat.
Qed.

Ltac answered_now n i :=
  eapply (answers_now n _ i); [by apply resumed_lookup|reflexivity|done|done].

Lemma answers_fresh_phase2 n s i tk p B api initial updated :
  Inv s → tasks s !! i = Some tk →
  at_ tk = AwaitPhase2 p B api initial updated →
  (length (messages (deref (client s) p)) ≤ length B)%nat →
  answers_within (S n) s i.
Proof.
  intros HI Hi Hat Hfresh fetched response Hf Hr.
  destruct (active_facts s i tk p B HI Hi ltac:(by rewrite Hat))
    as (proc & Hreg & Hobj & Hlock & Hpre & Hne & _).
  rewrite (deref_lookup _ _ _ Hobj) in Hfresh.
  pose proof (step_phase2_eq s i tk p B api initial updated proc (response n)
                Hi Hat Hreg Hobj Hlock) as Hstep.
  rewrite (drive_step n i fetched response s tk _ _ Hi
             ltac:(by rewrite Hat) Hstep).
  destruct (Hr n) as [final ->].
  rewrite bool_decide_eq_false_2 by lia. answered_now n i.
Qed.

Lemma answers_fresh_phase1 n s i tk p B api :
  Inv s → tasks s !! i = Some tk → at_ tk = AwaitPhase1 p B api →
  (length (messages (deref (client s) p)) ≤ length B)%nat →
  answers_within (S (S n)) s i.
Proof.
  intros HI Hi Hat Hfresh fetched response Hf Hr.
  destruct (active_facts s i tk p B HI Hi ltac:(by rewrite Hat))
    as (proc & Hreg & Hobj & Hlock & Hpre & Hne & _).
  pose proof (step_phase1_eq s i tk p B api proc (response (S n))
                Hi Hat Hreg Hobj Hlock) as Hstep.
  rewrite (drive_step (S n) i fetched response s tk _ _ Hi
             ltac:(by rewrite Hat) Hstep).
  destruct (Hr (S n)) as [initial Hinitial]. rewrite Hinitial in Hstep |- *.
  rewrite (deref_lookup _ _ _ Hobj) in Hfresh.
  rewrite bool_decide_eq_false_2 in Hstep |- * by lia.
  destruct (cc_tool_calls initial) as [[|tc tcs]|] eqn:Htc;
    try answered_now (S n) i.
  eapply (answers_fresh_phase2 n _ i);
    [eapply step_inv; [exact HI|exact Hstep]
    |by apply resumed_lookup
    |reflexivity
    |simpl; by rewrite (deref_lookup _ _ _ Hobj)
    |done|done].
Qed.

Lemma answers_fresh_history n s i tk p B :
  Inv s → tasks s !! i = Some tk → at_ tk = AwaitHistory p B →
  (length (messages (deref (client s) p)) ≤ length B)%nat →
  answers_within (S (S (S n))) s i.
Proof.
  intros HI Hi Hat Hfresh fetched response Hf Hr.
  destruct (active_facts s i tk p B HI Hi ltac:(by rewrite Hat))
    as (proc & Hreg & Hobj & Hlock & Hpre & Hne & _).
  pose proof (step_history_eq s i tk p B proc (fetched (S (S n)))
                Hi Hat Hreg Hobj Hlock) as Hstep.
  rewrite (drive_step (S (S n)) i fetched response s tk _ _ Hi
             ltac:(by rewrite Hat) Hstep).
  destruct (Hf (S (S n))) as [history Hhistory].
  rewrite Hhistory in Hstep |- *.
  eapply (answers_fresh_phase1 n _ i);
    [eapply step_inv; [exact HI|exact Hstep]
    |by apply resumed_lookup
    |reflexivity
    |done
    |done|done].
Qed.

Lemma answers_phase2 n s i tk p B api initial updated :
  Inv s → tasks s !! i = Some tk →
  at_ tk = AwaitPhase2 p B api initial updated →
  answers_within (S (S (S (S n)))) s i.
Proof.
  intros HI Hi Hat fetched response Hf Hr.
  destruct (active_facts s i tk p B HI Hi ltac:(by rewrite Hat))
    as (proc & Hreg & Hobj & Hlock & Hpre & Hne & _).
  pose proof (step_phase2_eq s i tk p B api initial updated proc
                (response (S (S (S n)))) Hi Hat Hreg Hobj Hlock) as Hstep.
  rewrite (drive_step (S (S (S n))) i fetched response s tk _ _ Hi
             ltac:(by rewrite Hat) Hstep).
  destruct (Hr (S (S (S n)))) as [final Hfinal]. rewrite Hfinal in Hstep |- *.
  case_bool_decide as Hstale; [|answered_now (S (S (S n))) i].
  eapply (answers_fresh_history n _ i);
    [eapply step_inv; [exact HI|exact Hstep]
    |by apply resumed_lookup
    |reflexivity
    |simpl; by rewrite (deref_lookup _ _ _ Hobj)
    |done|done].
Qed.

Lemma answers_phase1 n s i tk p B api :
  Inv s → tasks s !! i = Some tk → at_ tk = AwaitPhase1 p B api →
  answers_within (S (S (S (S n)))) s i.
Proof.
  intros HI Hi Hat fetched response Hf Hr.
  destruct (active_facts s i tk p B HI Hi ltac:(by rewrite Hat))
    as (proc & Hreg & Hobj & Hlock & Hpre & Hne & _).
  pose proof (step_phase1_eq s i tk p B api proc (response (S (S (S n))))
                Hi Hat Hreg Hobj Hlock) as Hstep.
  rewrite (drive_step (S (S (S n))) i fetched response s tk _ _ Hi
             ltac:(by rewrite Hat) Hstep).
  destruct (Hr (S (S (S n)))) as [initial Hinitial].
  rewrite Hinitial in Hstep |- *.
  case_bool_decide as Hstale.
  - eapply (answers_fresh_history n _ i);
      [eapply step_inv; [exact HI|exact Hstep]
      |by apply resumed_lookup
      |reflexivity
      |simpl; by rewrite (deref_lookup _ _ _ Hobj)
      |done|done].
  - destruct (cc_tool_calls initial) as [[|tc tcs]|] eqn:Htc;
      try answered_now (S (S (S n))) i.
    eapply (answers_fresh_phase2 (S (S n)) _ i);
      [eapply step_inv; [exact HI|exact Hstep]
      |by apply resumed_lookup
      |reflexivity
      |simpl; rewrite (deref_lookup _ _ _ Hobj); lia
      |done|done].
Qed.

Lemma answers_history n s i tk p B :
  Inv s → tasks s !! i = Some tk → at_ tk = AwaitHistory p B →
  answers_within (S (S (S (S (S n))))) s i.
Proof.
  intros HI Hi Hat fetched response Hf Hr.
  destruct (active_facts s i tk p B HI Hi ltac:(by rewrite Hat))
    as (proc & Hreg & Hobj & Hlock & Hpre & Hne & _).
  pose proof (step_history_eq s i tk p B proc (fetched (S (S (S (S n)))))
                Hi Hat Hreg Hobj Hlock) as Hstep.
  rewrite (drive_step (S (S (S (S n)))) i fetched response s tk _ _ Hi
             ltac:(by rewrite Hat) Hstep).
  destruct (Hf (S (S (S (S n))))) as [history Hhistory].
  rewrite Hhistory in Hstep |- *.
  eapply (answers_phase1 n _ i);
    [eapply step_inv; [exact HI|exact Hstep]
    |by apply resumed_lookup
    |reflexivity
    |done|done].
Qed.

(** X21. A call that holds its user's lock is answered once the user stays
    quiet and the history store and the provider answer: resumed with their
    answers, it returns an outcome, not nothing, after at most five
    resumptions (one attempt on a snapshot that went stale at most, and one on
    the fresh one). *)
Theorem quiet_user_gets_an_answer s i tk p B :
  reachable s → tasks s !! i = Some tk → active (at_ tk) = Some (p, B) →
  answers_within 5 s i.
Proof.
  intros Hreach Hi Ha. pose proof (reachable_inv s Hreach) as HI.
  destruct (at_ tk) as [|p0 B0|p0 B0 api|p0 B0 api initial updated|r|] eqn:Hat;
    try done.
  - by eapply (answers_history 0).
  - by eapply (answers_phase1 1).
  - by eapply (answers_phase2 1).
Qed.

End Collaborators.

(** ** The examples *)

Abbreviation demo_step :=
  (step demo_loads demo_dumps demo_dumps_calls demo_tools demo_prompt).

Abbreviation demo_run :=
  (run demo_loads demo_dumps demo_dumps_calls demo_tools demo_prompt).

Abbreviation demo_reachable :=
  (reachable demo_loads demo_dumps demo_dumps_calls demo_tools demo_prompt).

(** [after evs]: the state a schedule leads to from the start. *)
Abbreviation after evs := (default init (demo_run init evs)).

Lemma after_reachable evs :
  demo_run init evs = Some (after evs) → demo_reachable (after evs).
Proof. intros H. by exists evs. Qed.

(** Scenario A: the second message sends the first attempt back to the top of
    the loop, and the prompt of the second attempt joins both messages. *)
Example scenario_A_restarts :
  at_ <$> tasks (after scenario_A) !! 0%nat
  = Some (AwaitPhase1 0 ["hi"; "how are you"]
            [ {| role := MessageRole.system;
                 content := Some (VStr "You are Twiga");
                 tool_calls := None; tool_call_id := None |};
              user_turn ["hi"; "how are you"] ])
  ∧ content (user_turn ["hi"; "how are you"])
    = Some (VStr ("hi" +:+ newline +:+ "how are you")).
Proof. split; vm_compute; reflexivity. Qed.

(** Scenario A once more, through [loss_freedom]: the attempt that returns
    the outcome works on both messages. *)
Lemma loss_freedom_witness :
  ∃ tk api,
    tasks (after scenario_A) !! 0%nat = Some tk ∧ user tk = alice ∧
    snapshot_of (at_ tk) = Some ["hi"; "how are you"] ∧
    prompt_of (at_ tk) = Some api ∧
    last api
    = Some {| role := MessageRole.user;
              content :=
                Some (VStr ("hi"
                            +:+ String (Ascii.Ascii false true false true
                                          false false false false)
                                  "how are you"));
              tool_calls := None; tool_call_id := None |}.
Proof.
  destruct (loss_freedom demo_loads demo_dumps demo_dumps_calls demo_tools
              demo_prompt) as (Hall & _ & _).
  apply (Hall init alice "hi" (tail scenario_A) (after scenario_A)
           (Ok (answer "I am fine"))
           (after (scenario_A ++ [Completed 0 (Ok (answer "I am fine"))]))
           [assistant_turn (VStr "I am fine")]).
  - by exists [].
  - reflexivity.
  - vm_compute. reflexivity.
  - vm_compute. reflexivity.
  - vm_compute. reflexivity.
Defined.

(** Two users past their locks at once, a second call of the first user
    deferred. *)
Lemma mutual_exclusion_witness :
  one_generation_per_user (after two_users) ∧ nobody_waits (after two_users)
  ∧ locks_have_holders (after two_users)
  ∧ at_ <$> tasks (after two_users)
    = [AwaitHistory 0 ["hi"]; AwaitHistory 1 ["habari"]; Returned None].
Proof.
  split_and!; [| | |vm_compute; reflexivity];
    apply (mutual_exclusion demo_loads demo_dumps demo_dumps_calls demo_tools
             demo_prompt (after two_users));
    apply after_reachable; vm_compute; reflexivity.
Defined.

(** A second message while the first call holds the lock. *)
Lemma entry_gate_deferral_witness :
  demo_step (after [Call alice "hi"]) (Call alice "how are you")
  = Some (after [Call alice "hi"; Call alice "how are you"])
  ∧ pending (after [Call alice "hi"; Call alice "how are you"]) 7
    = ["hi"; "how are you"]
  ∧ at_ <$> tasks (after [Call alice "hi"; Call alice "how are you"])
    = [AwaitHistory 0 ["hi"]; Returned None].
Proof.
  pose proof (entry_gate_deferral demo_loads demo_dumps demo_dumps_calls
                demo_tools demo_prompt (after [Call alice "hi"]) alice
                "how are you" 0
                {| MessageProcessor.user_id := 7;
                   MessageProcessor.lock := true;
                   MessageProcessor.messages := ["hi"] |}) as H.
  destruct H as (Hstep & _).
  - apply after_reachable. vm_compute. reflexivity.
  - vm_compute. reflexivity.
  - vm_compute. reflexivity.
  - reflexivity.
  - split_and!.
    + rewrite Hstep. vm_compute. reflexivity.
    + vm_compute. reflexivity.
    + vm_compute. reflexivity.
Defined.

(** The prompt list is object 0; the staged list is a new object 1. *)
Lemma process_tool_calls_frame_witness :
  let r := _process_tool_calls_in_heap demo_loads demo_dumps demo_dumps_calls
             demo_tools 0 [known_call; unknown_call] [[user_turn ["what time?"]]] in
  r.2 !! 0%nat = Some [user_turn ["what time?"]]
  ∧ r.1 = 1%nat
  ∧ r.2 !! 1%nat
    = Some [ user_turn ["what time?"];
             echo_turn demo_dumps_calls [known_call; unknown_call];
             tool_turn "noon" "call_1" ].
Proof.
  destruct (process_tool_calls_frame demo_loads demo_dumps demo_dumps_calls
              demo_tools [[user_turn ["what time?"]]] 0
              [user_turn ["what time?"]] [known_call; unknown_call] eq_refl)
    as (Hsame & _ & _ & Hnew & _).
  split_and!.
  - exact Hsame.
  - reflexivity.
  - vm_compute. reflexivity.
Defined.

(** Scenario D: two users in flight; their completions may come back in
    either order, and each call returns its own answer. *)
Example scenario_D_either_order :
  at_ <$> tasks (after [ Call alice "hi"; Call bob "habari";
                         HistoryFetched 0 (said ["hi"]);
                         HistoryFetched 1 (said ["habari"]);
                         Completed 1 (Ok (answer "Nzuri"));
                         Completed 0 (Ok (answer "Hello!")) ])
  = [ Returned (Some [assistant_turn (VStr "Hello!")]);
      Returned (Some [assistant_turn (VStr "Nzuri")]) ]
  ∧ at_ <$> tasks (after [ Call alice "hi"; Call bob "habari";
                           HistoryFetched 0 (said ["hi"]);
                           HistoryFetched 1 (said ["habari"]);
                           Completed 0 (Ok (answer "Hello!"));
                           Completed 1 (Ok (answer "Nzuri")) ])
    = [ Returned (Some [assistant_turn (VStr "Hello!")]);
        Returned (Some [assistant_turn (VStr "Nzuri")]) ].
Proof. split; vm_compute; reflexivity. Qed.

(** Scenario C: the history fetch raises; the call returns nothing, the buffer
    is empty and the lock free, the processor still registered. *)
Example scenario_C_history_failure :
  at_ <$> tasks (after [ Call alice "hi";
                         HistoryFetched 0 (Raise (Exception "db down")) ])
  = [Returned None]
  ∧ pending (after [ Call alice "hi";
                     HistoryFetched 0 (Raise (Exception "db down")) ]) 7 = []
  ∧ MessageProcessor.lock
      (deref (client (after [ Call alice "hi";
                              HistoryFetched 0 (Raise (Exception "db down")) ]))
         0) = false.
Proof. vm_compute. by split_and!. Qed.

(** ** Where the code departs from its description *)


(** C2. A completion that fails comes back as [None], and the call returns
    at once: the lock is released, but the buffer keeps its message and the
    processor stays registered. The handler of exceptions and the
    empty-snapshot exit, both in the same loop, clear the buffer first. *)
Example null_completion_keeps_buffer :
  let s := after [ Call alice "hi"; HistoryFetched 0 (said ["hi"]);
                   Completed 0 (Raise (Exception "provider timeout")) ] in
  at_ <$> tasks s = [Returned None]
  ∧ pending s 7 = ["hi"]
  ∧ MessageProcessor.lock (deref (client s) 0) = false
  ∧ _processors (client s) !! 7 = Some 0%nat.
Proof. vm_compute. by split_and!. Qed.

(** C3. Scenario B on the code. Of two requests one names a registered
    tool: one tool turn is staged and phase 2 runs on the prompt, the echo and
    that turn. The outcome, though, is cut from the last three staged turns,
    one per request plus one: it starts with the user turn of the prompt, its
    content taken from a key it does not have, and the echo comes second with no
    content; the raw requests are not in the outcome at all. *)
Example partial_resolution_outcome :
  at_ <$> tasks (after [ Call alice "what time?";
                         HistoryFetched 0 (said ["what time?"]);
                         Completed 0 (Ok two_requests) ])
  = [ AwaitPhase2 0 ["what time?"]
        [ {| role := MessageRole.system;
             content := Some (VStr "You are Twiga");
             tool_calls := None; tool_call_id := None |};
          user_turn ["what time?"] ]
        two_requests
        [ {| role := MessageRole.system;
             content := Some (VStr "You are Twiga");
             tool_calls := None; tool_call_id := None |};
          user_turn ["what time?"];
          echo_turn demo_dumps_calls [known_call; unknown_call];
          tool_turn "noon" "call_1" ] ]
  ∧ at_ <$> tasks (after [ Call alice "what time?";
                           HistoryFetched 0 (said ["what time?"]);
                           Completed 0 (Ok two_requests);
                           Completed 0 (Ok (answer "It is noon.")) ])
    = [ Returned
          (Some [ {| role := MessageRole.user; content := Some VNone;
                     tool_calls := None; tool_call_id := None |};
                  {| role := MessageRole.assistant; content := Some VNone;
                     tool_calls := None; tool_call_id := None |};
                  {| role := MessageRole.tool; content := Some (VStr "noon");
                     tool_calls := None; tool_call_id := None |};
                  assistant_turn (VStr "It is noon.") ]) ].
Proof. split; vm_compute; reflexivity. Qed.

(** C4. With a stored history shorter than the snapshot, here none at all,
    the slice that drops the last |B| formatted turns takes the system turn
    with it: the prompt is the user turn alone. *)
Example short_history_drops_system_turn :
  api_messages (_format_conversation_history demo_prompt None) ["hi"]
  = [user_turn ["hi"]]
  ∧ at_ <$> tasks (after [Call alice "hi"; HistoryFetched 0 (Ok None)])
    = [AwaitPhase1 0 ["hi"] [user_turn ["hi"]]].
Proof. split; vm_compute; reflexivity. Qed.

(** C5. After a successful generation the buffer is empty and the lock is
    free, and the processor is still in the registry: [_cleanup_processor] ran
    while the lock was still held and did nothing. *)
Example success_keeps_processor_registered :
  let s := after [ Call alice "hi"; HistoryFetched 0 (said ["hi"]);
                   Completed 0 (Ok (answer "Hello!")) ] in
  at_ <$> tasks s = [Returned (Some [assistant_turn (VStr "Hello!")])]
  ∧ pending s 7 = []
  ∧ MessageProcessor.lock (deref (client s) 0) = false
  ∧ _processors (client s) !! 7 = Some 0%nat.
Proof. vm_compute. by split_and!. Qed.

(** ** Examples for the further properties *)

Abbreviation demo_process_tool_calls :=
  (_process_tool_calls demo_loads demo_dumps demo_dumps_calls demo_tools).

(** The processor of a served user is empty and unlocked: were it evicted,
    the next message would get a new one. *)
Lemma evicted_processor_is_not_reused_witness :
  ∃ self1 self2 p',
    _cleanup_processor 7 (client (after served)) = (Ok (), self1) ∧
    _processors self1 !! 7 = None ∧
    _get_processor 7 self1 = (Ok p', self2) ∧
    p' ≠ 0%nat ∧ _processors self2 !! 7 = Some p' ∧
    objects self2 !! 0%nat
    = Some {| MessageProcessor.user_id := 7; MessageProcessor.lock := false;
              MessageProcessor.messages := [] |} ∧
    objects self2 !! p' = Some (MessageProcessor.__init__ 7).
Proof.
  apply (evicted_processor_is_not_reused (client (after served)) 7 0
           {| MessageProcessor.user_id := 7; MessageProcessor.lock := false;
              MessageProcessor.messages := [] |});
    vm_compute; reflexivity.
Defined.

(** One message added after a snapshot of one. *)
Lemma check_new_messages_sees_appends_witness :
  _check_new_messages 0 1
    (altered (client (after [Call alice "hi"])) 0
       (λ x, foldl MessageProcessor.add_message x ["how are you"]))
  = (Ok (bool_decide (1 < 1 + 1)%nat),
     altered (client (after [Call alice "hi"])) 0
       (λ x, foldl MessageProcessor.add_message x ["how are you"]))
  ∧ _check_new_messages 0 1 (client (after [Call alice "hi"]))
    = (Ok false, client (after [Call alice "hi"]))
  ∧ _check_new_messages 0 1
      (altered (client (after [Call alice "hi"])) 0
         (λ x, foldl MessageProcessor.add_message x ["how are you"]))
    = (Ok (bool_decide (["how are you"] ≠ [])),
       altered (client (after [Call alice "hi"])) 0
         (λ x, foldl MessageProcessor.add_message x ["how are you"])).
Proof.
  apply (check_new_messages_sees_appends (client (after [Call alice "hi"])) 0
           {| MessageProcessor.user_id := 7; MessageProcessor.lock := true;
              MessageProcessor.messages := ["hi"] |} ["how are you"] 1).
  vm_compute. reflexivity.
Defined.

Lemma user_turn_content_extends_witness :
  content (user_turn (["hi"] ++ ["how are you"; "today"]))
  = Some (VStr (String.concat newline ["hi"] +:+ newline
                +:+ String.concat newline ["how are you"; "today"]))
  ∧ (∀ message, content (user_turn [message]) = Some (VStr message)).
Proof.
  apply (user_turn_content_extends ["hi"] ["how are you"; "today"]); done.
Defined.

(** The registered tool asked for and run: echo, tool turn, final answer. *)
Lemma outcome_after_resolved_tools_witness :
  ∃ s',
    demo_step (after tool_round) (Completed 0 (Ok (answer "It is noon.")))
    = Some s' ∧
    at_ <$> tasks s' !! 0%nat
    = Some (Returned (Some
        [ assistant_turn (VStr "get_time({})#call_1");
          {| role := MessageRole.tool; content := Some (VStr "noon");
             tool_calls := None; tool_call_id := None |};
          assistant_turn (VStr "It is noon.") ])).
Proof.
  apply (outcome_after_resolved_tools demo_loads demo_dumps demo_dumps_calls
           demo_tools demo_prompt (after tool_round) 0
           {| user := alice;
              at_ := AwaitPhase2 0 ["what time?"]
                       [demo_system_turn; user_turn ["what time?"]] one_request
                       (demo_process_tool_calls
                          [demo_system_turn; user_turn ["what time?"]]
                          [known_call]) |}
           0 ["what time?"] [demo_system_turn; user_turn ["what time?"]]
           one_request
           (demo_process_tool_calls
              [demo_system_turn; user_turn ["what time?"]] [known_call])
           [known_call] (answer "It is noon."));
    [apply after_reachable| | | | |]; vm_compute; reflexivity.
Defined.

(** A second answer that asks for a tool again is read for its content only. *)
Lemma phase2_tool_calls_are_ignored_witness :
  demo_step (after tool_round) (Completed 0 (Ok (answer "It is noon.")))
  = demo_step (after tool_round)
      (Completed 0 (Ok {| cc_content := VStr "It is noon.";
                          cc_tool_calls := Some [unknown_call] |})).
Proof.
  apply (phase2_tool_calls_are_ignored demo_loads demo_dumps demo_dumps_calls
           demo_tools demo_prompt (after tool_round) 0
           {| user := alice;
              at_ := AwaitPhase2 0 ["what time?"]
                       [demo_system_turn; user_turn ["what time?"]] one_request
                       (demo_process_tool_calls
                          [demo_system_turn; user_turn ["what time?"]]
                          [known_call]) |}
           0 ["what time?"] [demo_system_turn; user_turn ["what time?"]]
           one_request
           (demo_process_tool_calls
              [demo_system_turn; user_turn ["what time?"]] [known_call]));
    vm_compute; reflexivity.
Defined.

(** Scenario A at its restart. *)
Lemma restart_extends_snapshot_witness :
  0%nat = 0%nat ∧ ["hi"] `prefix_of` ["hi"; "how are you"] ∧
  (length ["hi"] < length ["hi"; "how are you"])%nat ∧
  ["hi"; "how are you"]
  = pending (after [ Call alice "hi"; HistoryFetched 0 (said ["hi"]);
                     Call alice "how are you" ]) 7 ∧
  client (after [ Call alice "hi"; HistoryFetched 0 (said ["hi"]);
                  Call alice "how are you";
                  Completed 0 (Ok (answer "Hello!")) ])
  = client (after [ Call alice "hi"; HistoryFetched 0 (said ["hi"]);
                    Call alice "how are you" ]).
Proof.
  apply (restart_extends_snapshot demo_loads demo_dumps demo_dumps_calls
           demo_tools demo_prompt
           (after [ Call alice "hi"; HistoryFetched 0 (said ["hi"]);
                    Call alice "how are you" ]) 0
           {| user := alice;
              at_ := AwaitPhase1 0 ["hi"]
                       [demo_system_turn; user_turn ["hi"]] |}
           0 ["hi"] (Ok (answer "Hello!"))
           (after [ Call alice "hi"; HistoryFetched 0 (said ["hi"]);
                    Call alice "how are you";
                    Completed 0 (Ok (answer "Hello!")) ])
           0 ["hi"; "how are you"]);
    [apply after_reachable| | | |]; vm_compute; reflexivity.
Defined.

(** Alice is still registered, to the same processor, once she is served. *)
Lemma registry_only_grows_witness :
  _processors (client (after served)) !! 7 = Some 0%nat ∧
  ∃ proc', objects (client (after served)) !! 0%nat = Some proc' ∧
           MessageProcessor.user_id proc' = 7.
Proof.
  apply (registry_only_grows demo_loads demo_dumps demo_dumps_calls
           demo_tools demo_prompt (after [Call alice "hi"]) (tail served)
           (after served) 7 0);
    [apply after_reachable| |]; vm_compute; reflexivity.
Defined.

(** The return of a served call. *)
Lemma every_return_frees_the_lock_witness :
  ∃ p,
    _processors (client (after served)) !! 7 = Some p ∧
    MessageProcessor.lock (deref (client (after served)) p) = false ∧
    pending (after served) 7 = [] ∧
    pending (after [Call alice "hi"; HistoryFetched 0 (said ["hi"])]) 7 ≠ [].
Proof.
  apply (every_return_frees_the_lock demo_loads demo_dumps demo_dumps_calls
           demo_tools demo_prompt
           (after [Call alice "hi"; HistoryFetched 0 (said ["hi"])])
           (Completed 0 (Ok (answer "Hello!"))) 0 (after served)
           {| user := alice;
              at_ := AwaitPhase1 0 ["hi"]
                       [demo_system_turn; user_turn ["hi"]] |}
           (Some [assistant_turn (VStr "Hello!")]));
    [apply after_reachable| | | |]; vm_compute; reflexivity.
Defined.

(** After a completion that failed the buffer still holds "hi"; the next
    call takes the free lock and works on both messages. *)
Lemma free_lock_starts_generation_witness :
  ∃ s' p,
    demo_step (after failed) (Call alice "hello?") = Some s' ∧
    tasks s'
    = tasks (after failed)
      ++ [ {| user := alice;
              at_ := AwaitHistory p (pending (after failed) 7 ++ ["hello?"])
           |} ] ∧
    _processors (client s') !! 7 = Some p ∧
    MessageProcessor.lock (deref (client s') p) = true ∧
    pending s' 7 = pending (after failed) 7 ++ ["hello?"].
Proof.
  apply (free_lock_starts_generation demo_loads demo_dumps demo_dumps_calls
           demo_tools demo_prompt (after failed) alice "hello?").
  - apply after_reachable. vm_compute. reflexivity.
  - intros p Hp. vm_compute in Hp. injection Hp as <-. vm_compute. reflexivity.
Defined.

(** While the first call of alice is out, she and bob both write. *)
Lemma buffer_only_grows_under_holder_witness :
  0%nat = 0%nat ∧ alice = alice ∧
  pending (after [ Call alice "hi"; HistoryFetched 0 (said ["hi"]);
                   Call alice "how are you"; Call bob "habari" ]) 7
  = pending (after [Call alice "hi"]) 7
    ++ appended 7 [ HistoryFetched 0 (said ["hi"]);
                    Call alice "how are you"; Call bob "habari" ] ∧
  ["hi"] `prefix_of`
    pending (after [ Call alice "hi"; HistoryFetched 0 (said ["hi"]);
                     Call alice "how are you"; Call bob "habari" ]) 7.
Proof.
  apply (buffer_only_grows_under_holder demo_loads demo_dumps demo_dumps_calls
           demo_tools demo_prompt (after [Call alice "hi"])
           [ HistoryFetched 0 (said ["hi"]);
             Call alice "how are you"; Call bob "habari" ]
           (after [ Call alice "hi"; HistoryFetched 0 (said ["hi"]);
                    Call alice "how are you"; Call bob "habari" ])
           0 {| user := alice; at_ := AwaitHistory 0 ["hi"] |} 0 ["hi"]
           {| user := alice;
              at_ := AwaitPhase1 0 ["hi"]
                       [demo_system_turn; user_turn ["hi"]] |}
           0 ["hi"]);
    [apply after_reachable| | | | |]; vm_compute; reflexivity.
Defined.

Lemma outcome_turns_have_role_and_content_witness :
  ∃ final,
    Ok (answer "Hello!") = Ok final ∧
    last [assistant_turn (VStr "Hello!")]
    = Some (assistant_turn (cc_content final)) ∧
    Forall (λ turn, is_Some (content turn) ∧ tool_calls turn = None ∧
                    tool_call_id turn = None)
      [assistant_turn (VStr "Hello!")] ∧
    (∀ tk p B api,
       tasks (after [Call alice "hi"; HistoryFetched 0 (said ["hi"])]) !! 0%nat
       = Some tk →
       at_ tk = AwaitPhase1 p B api →
       [assistant_turn (VStr "Hello!")] = [assistant_turn (cc_content final)] ∧
       default [] (cc_tool_calls final) = []).
Proof.
  apply (outcome_turns_have_role_and_content demo_loads demo_dumps
           demo_dumps_calls demo_tools demo_prompt
           (after [Call alice "hi"; HistoryFetched 0 (said ["hi"])]) 0
           (Ok (answer "Hello!")) (after served)
           [assistant_turn (VStr "Hello!")]);
    [apply after_reachable| |]; vm_compute; reflexivity.
Defined.

(** A second message of alice leaves bob's processor alone. *)
Lemma step_leaves_other_users_witness :
  _processors (client (after two_users)) !! 8
  = _processors (client (after [Call alice "hi"; Call bob "habari"])) !! 8 ∧
  pending (after two_users) 8
  = pending (after [Call alice "hi"; Call bob "habari"]) 8 ∧
  (∀ p, _processors (client (after [Call alice "hi"; Call bob "habari"])) !! 8
        = Some p →
        deref (client (after two_users)) p
        = deref (client (after [Call alice "hi"; Call bob "habari"])) p).
Proof.
  apply (step_leaves_other_users demo_loads demo_dumps demo_dumps_calls
           demo_tools demo_prompt (after [Call alice "hi"; Call bob "habari"])
           (Call alice "how are you") (after two_users) 8).
  - apply after_reachable. vm_compute. reflexivity.
  - vm_compute. reflexivity.
  - vm_compute. congruence.
Defined.

(** The call waiting for its second answer. *)
Lemma snapshot_is_prefix_of_buffer_witness :
  ["what time?"] ≠ [] ∧
  ["what time?"] `prefix_of` pending (after tool_round) 7 ∧
  MessageProcessor.lock (deref (client (after tool_round)) 0) = true ∧
  last [demo_system_turn; user_turn ["what time?"]]
  = Some (user_turn ["what time?"]) ∧
  ∃ tool_calls,
    cc_tool_calls one_request = Some tool_calls ∧ tool_calls ≠ [] ∧
    demo_process_tool_calls
      [demo_system_turn; user_turn ["what time?"]] [known_call]
    = [demo_system_turn; user_turn ["what time?"]]
      ++ echo_turn demo_dumps_calls tool_calls
         :: (tool_calls ≫= tool_call_turns demo_loads demo_dumps demo_tools).
Proof.
  apply (snapshot_is_prefix_of_buffer demo_loads demo_dumps demo_dumps_calls
           demo_tools demo_prompt (after tool_round) 0
           {| user := alice;
              at_ := AwaitPhase2 0 ["what time?"]
                       [demo_system_turn; user_turn ["what time?"]] one_request
                       (demo_process_tool_calls
                          [demo_system_turn; user_turn ["what time?"]]
                          [known_call]) |}
           0 ["what time?"]);
    [apply after_reachable| |]; vm_compute; reflexivity.
Defined.

(** A store and a provider that always answer: the call returns an outcome. *)
Lemma quiet_user_gets_an_answer_witness :
  ∃ s' outcome,
    drive demo_loads demo_dumps demo_dumps_calls demo_tools demo_prompt
      5 0 (λ _, said ["hi"]) (λ _, Ok (answer "Hello!"))
      (after [Call alice "hi"])
    = Some s' ∧
    at_ <$> tasks s' !! 0%nat = Some (Returned (Some outcome)).
Proof.
  apply (quiet_user_gets_an_answer demo_loads demo_dumps demo_dumps_calls
           demo_tools demo_prompt (after [Call alice "hi"]) 0
           {| user := alice; at_ := AwaitHistory 0 ["hi"] |} 0 ["hi"]).
  - apply after_reachable. vm_compute. reflexivity.
  - vm_compute. reflexivity.
  - reflexivity.
  - intros k. by eexists.
  - intros k. by eexists.
Defined.
